(** * Traffic simulation engine: a shallow embedding of
      [src/hooks/useTrafficSimulation.ts]

    The hook keeps its state in React cells ([intersections], [vehicles],
    [stats]) and in refs ([simulationTick], [vehicleIdCounter]).  Every
    operation is embedded as a pure function from the old state to the new
    one; the draws of [Math.random] are explicit arguments.

    Numbers.  Timers, ticks, identifiers and grid indices are integers
    ([Z]).  Positions and speeds are JavaScript doubles; they are embedded
    as exact rationals ([Q]), and a test [Math.hypot(a, b) < d] with
    [0 <= d] is decided as [a*a + b*b < d*d]. *)

From Stdlib Require Import ZArith QArith Qround Lqa List Bool Lia.
From stdpp Require Import base decidable option list gmap.
Import ListNotations.

Local Open Scope Z_scope.

(** ** Configuration constants (lines 4-18) *)

Definition GRID_SIZE : Z := 3.
Definition LANE_WIDTH : Z := 50.
Definition INTERSECTION_SIZE : Z := 100.
Definition CELL_SIZE : Z := LANE_WIDTH * 2 + INTERSECTION_SIZE.

Definition TICKS_PER_SECOND : Z := 10.
Definition INITIAL_LIGHT_DURATION : Z := 2 * TICKS_PER_SECOND.
(** [0.5 * TICKS_PER_SECOND] is the integer 5. *)
Definition YELLOW_LIGHT_DURATION : Z := TICKS_PER_SECOND / 2.

Definition JAM_VEHICLE_THRESHOLD : nat := 3.
Definition JAM_STOPPED_RATIO_THRESHOLD : Q := 66 # 100.

Definition COLLISION_FLASH_DURATION_TICKS : Z := 1 * TICKS_PER_SECOND.

(** ** Data model

    The hook imports its types from [../types], a module that is not among
    the sources.  The declarations below follow section 3 of the
    specification and the fields and values the hook reads and writes. *)

(** Modelled from the spec: the heading variant of [../types], written
    ['N'], ['S'], ['E'], ['W'] in the hook. *)
Inductive Direction := N | S | E | W.

(** Modelled from the spec: the enumeration [LightState] of [../types]. *)
Inductive LightState := RED | YELLOW | GREEN.

(** Modelled from the spec: the enumeration [VehicleType] of [../types]. *)
Inductive VehicleType := CAR | BIKE | BUS.

(** Modelled from the spec: the variant [WeatherCondition] of [../types]. *)
Inductive WeatherCondition := Clear | Rain | Fog.

#[global] Instance Direction_eq_dec : EqDecision Direction.
Proof. solve_decision. Defined.
#[global] Instance LightState_eq_dec : EqDecision LightState.
Proof. solve_decision. Defined.
#[global] Instance VehicleType_eq_dec : EqDecision VehicleType.
Proof. solve_decision. Defined.

(** A grid cell [{ gridX, gridY }]. *)
Record Cell := mkCell { gridX : Z; gridY : Z }.

#[global] Instance Cell_eq_dec : EqDecision Cell.
Proof. solve_decision. Defined.

(** Modelled from the spec: the type [Light] of [../types], a state and a
    countdown timer in ticks. *)
Record Light := mkLight { state : LightState; timer : Z }.

(** The four lights of an intersection, a JavaScript 4-tuple indexed
    0 = N, 1 = S, 2 = E, 3 = W.  The four entries are distinct objects:
    the initialiser and [returnToAuto] build each one afresh. *)
Record Lights := mkLights { l0 : Light; l1 : Light; l2 : Light; l3 : Light }.

(** Modelled from the spec: the type [Intersection] of [../types].  [iid]
    is the field [id]; [emergencyOverrideFor] is a heading or [null]. *)
Record Intersection := mkIntersection {
  iid : Z;
  lights : Lights;
  manualOverride : bool;
  emergencyOverrideFor : option Direction
}.

(** Modelled from the spec: the type [Vehicle] of [../types].  [vid],
    [vtype], [vx], [vy] are the fields [id], [type], [x], [y];
    [destination], [path] and [collisionTimestamp] are optional. *)
Record Vehicle := mkVehicle {
  vid : Z;
  vtype : VehicleType;
  vx : Q;
  vy : Q;
  direction : Direction;
  speed : Q;
  stopped : bool;
  waitTime : Z;
  isEmergency : bool;
  destination : option Cell;
  path : option (list Cell);
  collisionTimestamp : option Z
}.

(** ** Light accessors: [newLights[i].state = s], [newLights[i].timer = t] *)

Definition getLight (i : nat) (L : Lights) : Light :=
  match i with
  | 0%nat => l0 L | 1%nat => l1 L | 2%nat => l2 L | _ => l3 L
  end.

Definition setLight (i : nat) (l : Light) (L : Lights) : Lights :=
  match i with
  | 0%nat => mkLights l (l1 L) (l2 L) (l3 L)
  | 1%nat => mkLights (l0 L) l (l2 L) (l3 L)
  | 2%nat => mkLights (l0 L) (l1 L) l (l3 L)
  | _ => mkLights (l0 L) (l1 L) (l2 L) l
  end.

Definition setState (i : nat) (s : LightState) (L : Lights) : Lights :=
  setLight i (mkLight s (timer (getLight i L))) L.

Definition setTimer (i : nat) (t : Z) (L : Lights) : Lights :=
  setLight i (mkLight (state (getLight i L)) t) L.

(** [newLights.forEach(l => l.timer = t)] *)
Definition setAllTimers (t : Z) (L : Lights) : Lights :=
  setTimer 3 t (setTimer 2 t (setTimer 1 t (setTimer 0 t L))).

Definition withLights (L : Lights) (it : Intersection) : Intersection :=
  mkIntersection (iid it) L (manualOverride it) (emergencyOverrideFor it).

Definition isNS (d : Direction) : bool :=
  match d with N | S => true | _ => false end.
Definition isEW (d : Direction) : bool :=
  match d with E | W => true | _ => false end.

(** ** Initial intersections (lines 89-101) *)

Definition initialIntersection (i : Z) : Intersection :=
  let ns := if i mod 2 =? 0 then GREEN else RED in
  let ew := if i mod 2 =? 0 then RED else GREEN in
  mkIntersection i
    (mkLights (mkLight ns INITIAL_LIGHT_DURATION)
              (mkLight ns INITIAL_LIGHT_DURATION)
              (mkLight ew INITIAL_LIGHT_DURATION)
              (mkLight ew INITIAL_LIGHT_DURATION))
    false None.

Definition initialIntersections : list Intersection :=
  map (fun i => initialIntersection (Z.of_nat i))
      (seq 0 (Z.to_nat (GRID_SIZE * GRID_SIZE))).

(** ** updateLights (lines 131-180), the callback of [prev.map] *)

Definition updateIntersection (it : Intersection) : Intersection :=
  if manualOverride it then it
  else match emergencyOverrideFor it with
  | Some dir =>
      let L := lights it in
      let L := setState 0 (if isNS dir then GREEN else RED) L in
      let L := setState 1 (if isNS dir then GREEN else RED) L in
      let L := setState 2 (if isEW dir then GREEN else RED) L in
      let L := setState 3 (if isEW dir then GREEN else RED) L in
      withLights L it
  | None =>
      let L := lights it in
      (* newLights[0].timer-- *)
      let L := setTimer 0 (timer (l0 L) - 1) L in
      let needsSwitch := timer (l0 L) <=? 0 in
      (* for (i = 1; i < 4; i++) newLights[i].timer = newLights[0].timer *)
      let L := setTimer 1 (timer (l0 L)) L in
      let L := setTimer 2 (timer (l0 L)) L in
      let L := setTimer 3 (timer (l0 L)) L in
      let L :=
        if needsSwitch then
          if bool_decide (state (l0 L) = GREEN) then
            let L := setState 1 YELLOW L in
            let L := setState 0 YELLOW L in
            let L := setTimer 1 YELLOW_LIGHT_DURATION L in
            setTimer 0 YELLOW_LIGHT_DURATION L
          else
            let L := setState 3 YELLOW L in
            let L := setState 2 YELLOW L in
            let L := setTimer 3 YELLOW_LIGHT_DURATION L in
            setTimer 2 YELLOW_LIGHT_DURATION L
        else if (timer (l0 L) =? INITIAL_LIGHT_DURATION - YELLOW_LIGHT_DURATION)
                && bool_decide (state (l0 L) = YELLOW) then
          let wasNSGreen := bool_decide (state (l2 L) = RED) in
          let L :=
            if wasNSGreen then
              let L := setState 1 RED L in
              let L := setState 0 RED L in
              let L := setState 3 GREEN L in
              setState 2 GREEN L
            else
              let L := setState 1 GREEN L in
              let L := setState 0 GREEN L in
              let L := setState 3 RED L in
              setState 2 RED L in
          setAllTimers INITIAL_LIGHT_DURATION L
        else L in
      withLights L it
  end.

Definition updateLights (prev : list Intersection) : list Intersection :=
  map updateIntersection prev.

(** ** setLightStateManually (lines 596-619) and returnToAuto (621-632) *)

Inductive Axis := NS | EW.

Definition setLightStateManually (intersectionId : Z) (axis : Axis)
    (prev : list Intersection) : list Intersection :=
  map (fun int =>
         if iid int =? intersectionId then
           let L := lights int in
           let L :=
             match axis with
             | NS => setState 3 RED (setState 2 RED
                       (setState 1 GREEN (setState 0 GREEN L)))
             | EW => setState 3 GREEN (setState 2 GREEN
                       (setState 1 RED (setState 0 RED L)))
             end in
           let L := setAllTimers 999 L in
           mkIntersection (iid int) L true (emergencyOverrideFor int)
         else int) prev.

Definition returnToAuto (intersectionId : Z) (prev : list Intersection)
    : list Intersection :=
  map (fun int =>
         if iid int =? intersectionId then
           mkIntersection (iid int)
             (setAllTimers INITIAL_LIGHT_DURATION (lights int))
             false (emergencyOverrideFor int)
         else int) prev.

(** The four-phase view of an intersection used by the specification. *)
Inductive Phase := NS_GREEN | NS_YELLOW | EW_GREEN | EW_YELLOW.

Definition phaseOf (L : Lights) : option Phase :=
  match state (l0 L), state (l1 L), state (l2 L), state (l3 L) with
  | GREEN, GREEN, RED, RED => Some NS_GREEN
  | YELLOW, YELLOW, RED, RED => Some NS_YELLOW
  | RED, RED, GREEN, GREEN => Some EW_GREEN
  | RED, RED, YELLOW, YELLOW => Some EW_YELLOW
  | _, _, _, _ => None
  end.

(** The phase an intersection shows, with the timer of its light 0. *)
Definition phaseTrace (it : Intersection) : option Phase * Z :=
  (phaseOf (lights it), timer (l0 (lights it))).

(** An axis shows colour [c] when one of its two lights does. *)
Definition nsShows (c : LightState) (it : Intersection) : bool :=
  bool_decide (state (l0 (lights it)) = c)
  || bool_decide (state (l1 (lights it)) = c).
Definition ewShows (c : LightState) (it : Intersection) : bool :=
  bool_decide (state (l2 (lights it)) = c)
  || bool_decide (state (l3 (lights it)) = c).

(** ** A* path finding: findPath (lines 21-80)

    A key [`${gridX},${gridY}`] is embedded as the pair of its two
    integers: the template string is injective on integers and
    [split(',').map(Number)] is its inverse.  [nodes] is the [Map] from keys
    to search records; [openSet] is the [Set] of keys, kept as the list of
    its members in insertion order, which is the order in which a
    JavaScript [Set] is iterated. *)

Module PathFinder.

Definition key : Type := (Z * Z)%type.

Record Node := mkNode { g : Z; h : Z; f : Z; parent : option key }.

Definition keyOf (c : Cell) : key := (gridX c, gridY c).
Definition cellOf (k : key) : Cell := mkCell (fst k) (snd k).

Definition manhattan (a b : Cell) : Z :=
  Z.abs (gridX a - gridX b) + Z.abs (gridY a - gridY b).

(** Lines 36-41: the first member of [openSet], replaced by any later
    member with a strictly smaller [f].  A key without a record in
    [nodes] makes [nodes.get(key).f] throw: no result. *)
Definition pickCurrent (nodes : gmap key Node) (openSet : list key)
    : option key :=
  match openSet with
  | [] => None
  | first :: _ =>
      foldl (fun cur k =>
               currentKey ← cur;
               nk ← nodes !! k;
               nc ← nodes !! currentKey;
               Some (if f nk <? f nc then k else currentKey))
            (Some first) openSet
  end.

(** Lines 44-51 without the final [slice(1)]: walk the [parent] links,
    putting each cell in front of the path. *)
Fixpoint buildPath (fuel : nat) (nodes : gmap key Node)
    (tempKey : option key) (acc : list Cell) : option (list Cell) :=
  match tempKey with
  | None => Some acc
  | Some k =>
      match fuel with
      | O => None
      | Datatypes.S fuel' =>
          n ← nodes !! k;
          buildPath fuel' nodes (parent n) (cellOf k :: acc)
      end
  end.

(** Lines 58-63. *)
Definition inGridB (c : Cell) : bool :=
  (0 <=? gridX c) && (gridX c <? GRID_SIZE)
  && (0 <=? gridY c) && (gridY c <? GRID_SIZE).

Definition neighbors (currentX currentY : Z) : list Cell :=
  List.filter inGridB
    [ mkCell (currentX + 1) currentY;
      mkCell (currentX - 1) currentY;
      mkCell currentX (currentY + 1);
      mkCell currentX (currentY - 1) ].

(** Lines 65-77: the body of the loop over the neighbours. *)
Definition relax (end_ : Cell) (currentKey : key) (currentNode : Node)
    (st : gmap key Node * list key) (neighbor : Cell)
    : gmap key Node * list key :=
  let '(nodes, openSet) := st in
  let neighborKey := keyOf neighbor in
  let gScore := g currentNode + 1 in
  let hScore := manhattan neighbor end_ in
  let fScore := gScore + hScore in
  let better :=
    match nodes !! neighborKey with
    | None => true
    | Some old => fScore <? f old
    end in
  if better then
    (<[neighborKey := mkNode gScore hScore fScore (Some currentKey)]> nodes,
     if bool_decide (neighborKey ∈ openSet) then openSet
     else openSet ++ [neighborKey])
  else (nodes, openSet).

(** Lines 35-79: the [while (openSet.size > 0)] loop; [fuel] bounds the
    number of iterations (and the length of the parent walk). *)
Fixpoint search (fuel : nat) (end_ : Cell) (nodes : gmap key Node)
    (openSet : list key) : option (list Cell) :=
  match fuel with
  | O => None
  | Datatypes.S fuel' =>
      match openSet with
      | [] => Some []
      | _ =>
          currentKey ← pickCurrent nodes openSet;
          if bool_decide (currentKey = keyOf end_) then
            p ← buildPath fuel' nodes (Some currentKey) [];
            Some (tail p)
          else
            let openSet := List.filter (fun k => negb (bool_decide (k = currentKey))) openSet in
            currentNode ← nodes !! currentKey;
            let '(nodes, openSet) :=
              fold_left (relax end_ currentKey currentNode)
                        (neighbors (fst currentKey) (snd currentKey))
                        (nodes, openSet) in
            search fuel' end_ nodes openSet
      end
  end.

Definition findPath (fuel : nat) (start end_ : Cell) : option (list Cell) :=
  let startKey := keyOf start in
  let nodes : gmap key Node :=
    {[ startKey := mkNode 0 (manhattan start end_) (manhattan start end_) None ]} in
  search fuel end_ nodes [startKey].

(** A walk on the grid graph: each cell is 4-adjacent to the one before. *)
Definition adjacentB (a b : Cell) : bool :=
  manhattan a b =? 1.

Fixpoint walkFrom (a : Cell) (p : list Cell) : bool :=
  match p with
  | [] => true
  | c :: rest => adjacentB a c && inGridB c && walkFrom c rest
  end.

End PathFinder.

(** ** Numeric helpers for the double-valued fields *)

Definition Qltb (a b : Q) : bool := negb (Qle_bool b a).

(** [Math.hypot(a, b) < d] for a non-negative literal [d]. *)
Definition hypotLt (a b : Q) (d : Z) : bool :=
  Qltb (a * a + b * b) (inject_Z (d * d)).

(** [Math.floor(p / CELL_SIZE)] *)
Definition gridIndex (p : Q) : Z := Qfloor (p / inject_Z CELL_SIZE).

(** JavaScript [p % c]: the remainder of the division truncated towards
    zero, so that the result has the sign of [p]. *)
Definition Qtruncate (q : Q) : Z :=
  if Qle_bool 0 q then Qfloor q else Qceiling q.
Definition jsRem (p : Q) (c : Z) : Q :=
  (p - inject_Z c * inject_Z (Qtruncate (p / inject_Z c)))%Q.

(** ** Vehicle field updates *)

Definition setCollisionTimestamp (t : option Z) (v : Vehicle) : Vehicle :=
  mkVehicle (vid v) (vtype v) (vx v) (vy v) (direction v) (speed v)
    (stopped v) (waitTime v) (isEmergency v) (destination v) (path v) t.

Definition setDirection (d : Direction) (v : Vehicle) : Vehicle :=
  mkVehicle (vid v) (vtype v) (vx v) (vy v) d (speed v)
    (stopped v) (waitTime v) (isEmergency v) (destination v) (path v)
    (collisionTimestamp v).

Definition setStopped (b : bool) (v : Vehicle) : Vehicle :=
  mkVehicle (vid v) (vtype v) (vx v) (vy v) (direction v) (speed v)
    b (waitTime v) (isEmergency v) (destination v) (path v)
    (collisionTimestamp v).

Definition setWaitTime (w : Z) (v : Vehicle) : Vehicle :=
  mkVehicle (vid v) (vtype v) (vx v) (vy v) (direction v) (speed v)
    (stopped v) w (isEmergency v) (destination v) (path v)
    (collisionTimestamp v).

Definition setPosition (x y : Q) (v : Vehicle) : Vehicle :=
  mkVehicle (vid v) (vtype v) x y (direction v) (speed v)
    (stopped v) (waitTime v) (isEmergency v) (destination v) (path v)
    (collisionTimestamp v).

Definition setRoute (dest : option Cell) (p : option (list Cell))
    (em : bool) (v : Vehicle) : Vehicle :=
  mkVehicle (vid v) (vtype v) (vx v) (vy v) (direction v) (speed v)
    (stopped v) (waitTime v) em dest p (collisionTimestamp v).

(** [path.findIndex(p => p.gridX === gx && p.gridY === gy)], [-1] when no
    element matches. *)
Fixpoint findIndexFrom (i : Z) (gx gy : Z) (p : list Cell) : Z :=
  match p with
  | [] => -1
  | c :: rest =>
      if (gridX c =? gx) && (gridY c =? gy) then i
      else findIndexFrom (i + 1) gx gy rest
  end.
Definition findIndex (gx gy : Z) (p : list Cell) : Z := findIndexFrom 0 gx gy p.

(** The heading implied by a step [(dx, dy)]; [d] when the step is null. *)
Definition headingOf (dx dy : Z) (d : Direction) : Direction :=
  if 0 <? dx then E
  else if dx <? 0 then W
  else if 0 <? dy then S
  else if dy <? 0 then N
  else d.

(** ** moveVehicles, first pass (lines 229-333) *)

Definition getWeatherMultiplier (currentWeather : WeatherCondition)
    (vehicleType : VehicleType) : Q :=
  match currentWeather with
  | Rain => if bool_decide (vehicleType = BIKE) then 5 # 10 else 7 # 10
  | Fog => if bool_decide (vehicleType = BIKE) then 3 # 10 else 4 # 10
  | Clear => 1
  end.

(** Lines 247-250.  A timestamp equal to [0] is falsy in JavaScript, so
    the guard [newVehicle.collisionTimestamp && ...] keeps it. *)
Definition clearOldCollisionFlag (tick : Z) (v : Vehicle) : Vehicle :=
  match collisionTimestamp v with
  | Some t =>
      if negb (t =? 0) && (COLLISION_FLASH_DURATION_TICKS <? tick - t)
      then setCollisionTimestamp None v
      else v
  | None => v
  end.

(** Lines 255-276: an emergency vehicle close to the centre of its cell
    turns towards the next node of its path. *)
Definition routeEmergency (v : Vehicle) : Vehicle :=
  let gx := gridIndex (vx v) in
  let gy := gridIndex (vy v) in
  match path v with
  | Some p =>
      if isEmergency v && (0 <? Z.of_nat (length p)) then
        let intersectionCenterX := gx * CELL_SIZE + INTERSECTION_SIZE / 2 in
        let intersectionCenterY := gy * CELL_SIZE + INTERSECTION_SIZE / 2 in
        if hypotLt (vx v - inject_Z intersectionCenterX)
                   (vy v - inject_Z intersectionCenterY) 15 then
          let currentPathNodeIndex := findIndex gx gy p in
          if negb (currentPathNodeIndex =? -1)
             && (currentPathNodeIndex + 1 <? Z.of_nat (length p)) then
            match p !! Z.to_nat (currentPathNodeIndex + 1) with
            | Some nextNode =>
                setDirection
                  (headingOf (gridX nextNode - gx) (gridY nextNode - gy)
                             (direction v)) v
            | None => v
            end
          else v
        else v
      else v
  | None => v
  end.

(** Lines 278-287. *)
Definition isNearIntersection (v : Vehicle) (pos : Q) (alongX : bool) : bool :=
  let posInCell := jsRem pos CELL_SIZE in
  let lo := inject_Z (CELL_SIZE - INTERSECTION_SIZE - LANE_WIDTH - 10) in
  let hi := inject_Z (CELL_SIZE - INTERSECTION_SIZE - LANE_WIDTH) in
  let lo' := inject_Z (INTERSECTION_SIZE + LANE_WIDTH - 10) in
  let hi' := inject_Z (INTERSECTION_SIZE + LANE_WIDTH) in
  if alongX then
    (bool_decide (direction v = E) && Qltb lo posInCell && Qltb posInCell hi)
    || (bool_decide (direction v = W) && Qltb posInCell hi' && Qltb lo' posInCell)
  else
    (bool_decide (direction v = S) && Qltb lo posInCell && Qltb posInCell hi)
    || (bool_decide (direction v = N) && Qltb posInCell hi' && Qltb lo' posInCell).

Definition lightIndex (d : Direction) : nat :=
  match d with N => 0 | S => 1 | E => 2 | W => 3 end%nat.

(** Lines 291-302: the signal-based stop condition. *)
Definition stopAtLight (intersections : list Intersection) (v : Vehicle) : bool :=
  let gx := gridIndex (vx v) in
  let gy := gridIndex (vy v) in
  if (0 <=? gx) && (gx <? GRID_SIZE) && (0 <=? gy) && (gy <? GRID_SIZE) then
    if isNearIntersection v (vx v) true || isNearIntersection v (vy v) false then
      match intersections !! Z.to_nat (gy * GRID_SIZE + gx) with
      | Some intersection =>
          let light := getLight (lightIndex (direction v)) (lights intersection) in
          bool_decide (state light = RED) || bool_decide (state light = YELLOW)
      | None => false
      end
    else false
  else false.

Definition safetyDistance (v : Vehicle) : Z :=
  if bool_decide (vtype v = BUS) then 30 else 20.

(** Lines 306-315: does [otherVehicle] make [v] stop? *)
Definition blockedBy (v otherVehicle : Vehicle) : bool :=
  if vid v =? vid otherVehicle then false
  else if hypotLt (vx v - vx otherVehicle) (vy v - vy otherVehicle)
                  (safetyDistance v) then
    match direction v with
    | N => Qltb (vy otherVehicle) (vy v)
    | S => Qltb (vy v) (vy otherVehicle)
    | E => Qltb (vx v) (vx otherVehicle)
    | W => Qltb (vx otherVehicle) (vx v)
    end
  else false.

(** Lines 304-317: the vehicle-ahead stop condition. *)
Definition stopBehindVehicle (prevVehicles : list Vehicle) (v : Vehicle) : bool :=
  existsb (blockedBy v) prevVehicles.

(** Lines 289-317: the local variable [stop]. *)
Definition stopFlag (intersections : list Intersection)
    (prevVehicles : list Vehicle) (v : Vehicle) : bool :=
  if stopAtLight intersections v then true
  else stopBehindVehicle prevVehicles v.

(** Lines 323-330. *)
Definition advance (currentWeather : WeatherCondition) (v : Vehicle) : Vehicle :=
  let effectiveSpeed := (speed v * getWeatherMultiplier currentWeather (vtype v))%Q in
  match direction v with
  | N => setPosition (vx v) (vy v - effectiveSpeed)%Q v
  | S => setPosition (vx v) (vy v + effectiveSpeed)%Q v
  | E => setPosition (vx v + effectiveSpeed)%Q (vy v) v
  | W => setPosition (vx v - effectiveSpeed)%Q (vy v) v
  end.

(** The callback of [prevVehicles.map] (lines 244-333). *)
Definition moveVehicle (tick : Z) (currentWeather : WeatherCondition)
    (intersections : list Intersection) (prevVehicles : list Vehicle)
    (vehicle : Vehicle) : Vehicle :=
  let newVehicle := clearOldCollisionFlag tick vehicle in
  let newVehicle := routeEmergency newVehicle in
  let stop := stopFlag intersections prevVehicles newVehicle in
  let newVehicle := setStopped (stop && negb (isEmergency newVehicle)) newVehicle in
  if stopped newVehicle then setWaitTime (waitTime newVehicle + 1) newVehicle
  else advance currentWeather newVehicle.

(** ** moveVehicles, second pass: collision scan (lines 335-363)

    [movedVehicles[i]] and [movedVehicles[j]] with [i < j] are distinct
    objects (the first pass builds a fresh object per vehicle), so the
    writes through [vehicleA] and [vehicleB] are two updates by index.
    [collidedThisTick] is a [Set] of identifiers; [collisionLog] lists the
    pairs for which [addLog] reports a collision, in order. *)

Record ScanState := mkScan {
  movedVehicles : list Vehicle;
  collidedThisTick : gset Z;
  collisionLog : list (Z * Z)
}.

Definition collisionThreshold : Z := 15.

Definition markCollided (tick : Z) (v : Vehicle) : Vehicle :=
  setStopped true (setCollisionTimestamp (Some tick) v).

(** [dist < collisionThreshold], with
    [dist = Math.hypot(vehicleA.x - vehicleB.x, vehicleB.y - vehicleA.y)]. *)
Definition tooClose (vehicleA vehicleB : Vehicle) : bool :=
  hypotLt (vx vehicleA - vx vehicleB) (vy vehicleB - vy vehicleA)
          collisionThreshold.

(** The body of the inner loop for one pair of indices. *)
Definition scanPair (tick : Z) (i j : nat) (st : ScanState) : ScanState :=
  match movedVehicles st !! i, movedVehicles st !! j with
  | Some vehicleA, Some vehicleB =>
      if bool_decide (vid vehicleA ∈ collidedThisTick st)
         || bool_decide (vid vehicleB ∈ collidedThisTick st)
      then st
      else if tooClose vehicleA vehicleB then
        mkScan
          (<[j := markCollided tick vehicleB]>
             (<[i := markCollided tick vehicleA]> (movedVehicles st)))
          ({[vid vehicleB]} ∪ ({[vid vehicleA]} ∪ collidedThisTick st))
          (collisionLog st ++ [(vid vehicleA, vid vehicleB)])
      else st
  | _, _ => st
  end.

(** [for (j = i + 1; j < n; j++)] *)
Definition scanRow (tick : Z) (n : nat) (st : ScanState) (i : nat) : ScanState :=
  foldl (fun st j => scanPair tick i j st) st (seq (i + 1) (n - (i + 1))).

(** [for (i = 0; i < n; i++)] *)
Definition collisionScan (tick : Z) (moved : list Vehicle) : ScanState :=
  foldl (scanRow tick (length moved)) (mkScan moved ∅ []) (seq 0 (length moved)).

(** Line 365. *)
Definition inExtendedBounds (v : Vehicle) : bool :=
  Qltb (inject_Z (-50)) (vx v)
  && Qltb (vx v) (inject_Z (GRID_SIZE * CELL_SIZE + 50))
  && Qltb (inject_Z (-50)) (vy v)
  && Qltb (vy v) (inject_Z (GRID_SIZE * CELL_SIZE + 50)).

Record MoveResult := mkMoveResult {
  survivingVehicles : list Vehicle;
  exitedVehicleCount : nat;
  collisions : list (Z * Z)
}.

(** moveVehicles (lines 229-372): [tick] is [simulationTick.current];
    [exitedVehicleCount] is what the call adds to the throughput ref. *)
Definition moveVehicles (tick : Z) (currentWeather : WeatherCondition)
    (intersections : list Intersection) (prevVehicles : list Vehicle)
    : MoveResult :=
  let firstPass :=
    map (moveVehicle tick currentWeather intersections prevVehicles) prevVehicles in
  let scanned := collisionScan tick firstPass in
  let surviving := List.filter inExtendedBounds (movedVehicles scanned) in
  mkMoveResult surviving
    (length (movedVehicles scanned) - length surviving)%nat
    (collisionLog scanned).

(** The index pairs [(i, j)], [i < j < n], in the order the two loops
    visit them, and the state of the scan after a prefix of them. *)
Definition scanPairs (n : nat) : list (nat * nat) :=
  flat_map (fun i => map (fun j => (i, j)) (seq (i + 1) (n - (i + 1)))) (seq 0 n).

Definition scanStep (tick : Z) (st : ScanState) (p : nat * nat) : ScanState :=
  scanPair tick (fst p) (snd p) st.

Definition scanPrefix (tick : Z) (moved : list Vehicle)
    (visited : list (nat * nat)) : ScanState :=
  foldl (scanStep tick) (mkScan moved ∅ []) visited.

(** The identifiers that appear in the collision log. *)
Definition loggedIds (log : list (Z * Z)) : list Z :=
  flat_map (fun p => [fst p; snd p]) log.

(** What the scan maintains, for the pairs [visited] so far. *)
Record ScanInv (tick : Z) (moved : list Vehicle) (visited : list (nat * nat))
    (st : ScanState) : Prop := mkScanInv {
  inv_vehicles : forall k v, moved !! k = Some v ->
    movedVehicles st !! k =
      Some (if bool_decide (vid v ∈ collidedThisTick st)
            then markCollided tick v else v);
  inv_length : length (movedVehicles st) = length moved;
  inv_sound : forall a b, (a, b) ∈ collisionLog st ->
    exists i j vehicleA vehicleB,
      (i, j) ∈ visited
      /\ moved !! i = Some vehicleA /\ moved !! j = Some vehicleB
      /\ a = vid vehicleA /\ b = vid vehicleB
      /\ tooClose vehicleA vehicleB = true;
  inv_matched : forall z, z ∈ collidedThisTick st <-> z ∈ loggedIds (collisionLog st);
  inv_once : NoDup (loggedIds (collisionLog st));
  inv_complete : forall i j vehicleA vehicleB, (i, j) ∈ visited ->
    moved !! i = Some vehicleA -> moved !! j = Some vehicleB ->
    tooClose vehicleA vehicleB = true ->
    vid vehicleA ∈ collidedThisTick st \/ vid vehicleB ∈ collidedThisTick st
}.

(** ** detectJams (lines 374-432) *)

Inductive SegmentId :=
| Horizontal (i j : Z)   (* `H-${i}-${j}` *)
| Vertical (i j : Z).    (* `V-${i}-${j}` *)

#[global] Instance SegmentId_eq_dec : EqDecision SegmentId.
Proof. solve_decision. Defined.

Record Rect := mkRect { xMin : Z; xMax : Z; yMin : Z; yMax : Z }.

Definition segmentRect (s : SegmentId) : Rect :=
  match s with
  | Horizontal i j =>
      let yMin := i * CELL_SIZE + INTERSECTION_SIZE / 2 in
      mkRect (j * CELL_SIZE + INTERSECTION_SIZE) ((j + 1) * CELL_SIZE)
             yMin (yMin + LANE_WIDTH * 2)
  | Vertical i j =>
      let xMin := j * CELL_SIZE + INTERSECTION_SIZE / 2 in
      mkRect xMin (xMin + LANE_WIDTH * 2)
             (i * CELL_SIZE + INTERSECTION_SIZE) ((i + 1) * CELL_SIZE)
  end.

Definition inRect (r : Rect) (v : Vehicle) : bool :=
  Qltb (inject_Z (xMin r)) (vx v) && Qltb (vx v) (inject_Z (xMax r))
  && Qltb (inject_Z (yMin r)) (vy v) && Qltb (vy v) (inject_Z (yMax r)).

Definition vehiclesInSegment (vehicles : list Vehicle) (s : SegmentId)
    : list Vehicle :=
  List.filter (inRect (segmentRect s)) vehicles.

Definition stoppedCount (vs : list Vehicle) : nat :=
  length (List.filter stopped vs).

(** Lines 390-395.  The quotient is taken only when the divisor is at
    least [JAM_VEHICLE_THRESHOLD], hence positive. *)
Definition isJammed (inSegment : list Vehicle) : bool :=
  if (JAM_VEHICLE_THRESHOLD <=? length inSegment)%nat then
    Qle_bool JAM_STOPPED_RATIO_THRESHOLD
      (inject_Z (Z.of_nat (stoppedCount inSegment))
       / inject_Z (Z.of_nat (length inSegment)))
  else false.

(** The segments in the order the two pairs of loops visit them. *)
Definition range (n : Z) : list Z := map Z.of_nat (seq 0 (Z.to_nat n)).

Definition allSegments : list SegmentId :=
  flat_map (fun i => map (fun j => Horizontal i j) (range (GRID_SIZE - 1)))
           (range GRID_SIZE)
  ++ flat_map (fun i => map (fun j => Vertical i j) (range GRID_SIZE))
              (range (GRID_SIZE - 1)).

(** [newJammedSegments] *)
Definition detectJams (vehicles : list Vehicle) : list SegmentId :=
  List.filter (fun s => isJammed (vehiclesInSegment vehicles s)) allSegments.

(** ** spawnVehicle (lines 182-227)

    [vehicles] is the list captured by the callback, whose length the
    guard reads; [prev] is the list the updater extends; [counter] is
    [vehicleIdCounter.current]; [rEdge], [rPos], [rType], [rSpeed] are the
    four draws of [Math.random], in order. *)

Definition spawnVehicle (vehicles prev : list Vehicle) (counter : Z)
    (rEdge rPos rType rSpeed : Q) : list Vehicle * Z :=
  if (50 <? length vehicles)%nat then (prev, counter)
  else
    let edge := Qfloor (rEdge * 4) in
    let position := Qfloor (rPos * inject_Z GRID_SIZE) in
    let '(x, y, dir) :=
      if edge =? 0 then
        (position * CELL_SIZE + INTERSECTION_SIZE / 2 + LANE_WIDTH / 2, -20, S)
      else if edge =? 1 then
        (position * CELL_SIZE + INTERSECTION_SIZE / 2 - LANE_WIDTH / 2,
         GRID_SIZE * CELL_SIZE + 20, N)
      else if edge =? 2 then
        (-20, position * CELL_SIZE + INTERSECTION_SIZE / 2 - LANE_WIDTH / 2, E)
      else if edge =? 3 then
        (GRID_SIZE * CELL_SIZE + 20,
         position * CELL_SIZE + INTERSECTION_SIZE / 2 + LANE_WIDTH / 2, W)
      else (0, 0, E) in
    let '(type, spd) :=
      if Qltb rType (7 # 10) then (CAR, 2 + rSpeed * 2)%Q
      else if Qltb rType (9 # 10) then (BIKE, 3 + rSpeed * 2)%Q
      else (BUS, (15 # 10) + rSpeed * 1)%Q in
    let newVehicle :=
      mkVehicle counter type (inject_Z x) (inject_Z y) dir spd
                false 0 false None None None in
    (prev ++ [newVehicle], counter + 1).

(** ** prioritizeEmergencyPath (lines 434-472) *)

Definition clearOverride (i : Intersection) : Intersection :=
  match emergencyOverrideFor i with
  | Some _ => mkIntersection (iid i) (lights i) (manualOverride i) None
  | None => i
  end.

(** One iteration of the loop of lines 449-465, for path index [i]. *)
Definition overrideStep (p : list Cell) (currentGridX currentGridY : Z)
    (dir : Direction) (newOverrides : gmap Z Direction) (i : Z)
    : gmap Z Direction :=
  match p !! Z.to_nat i with
  | Some intersectionNode =>
      let intersectionId := gridY intersectionNode * GRID_SIZE + gridX intersectionNode in
      let prevNode :=
        if 0 <? i then default (mkCell currentGridX currentGridY) (p !! Z.to_nat (i - 1))
        else mkCell currentGridX currentGridY in
      let approachDir :=
        headingOf (gridX intersectionNode - gridX prevNode)
                  (gridY intersectionNode - gridY prevNode) dir in
      <[intersectionId := approachDir]> newOverrides
  | None => newOverrides
  end.

Definition prioritizeEmergencyPath (vehicles : list Vehicle)
    (prev : list Intersection) : list Intersection :=
  match List.find isEmergency vehicles with
  | Some emergencyVehicle =>
      match path emergencyVehicle with
      | Some p =>
          let currentGridX := gridIndex (vx emergencyVehicle) in
          let currentGridY := gridIndex (vy emergencyVehicle) in
          let currentPathIndex := findIndex currentGridX currentGridY p in
          let bound := Z.min (Z.of_nat (length p)) (currentPathIndex + 3) in
          let newOverrides :=
            foldl (overrideStep p currentGridX currentGridY (direction emergencyVehicle))
                  (∅ : gmap Z Direction)
                  (List.filter (fun i => i <? bound)
                     [currentPathIndex + 1; currentPathIndex + 2]) in
          map (fun i => mkIntersection (iid i) (lights i) (manualOverride i)
                          (newOverrides !! iid i)) prev
      | None => map clearOverride prev
      end
  | None => map clearOverride prev
  end.

(** ** toggleEmergency, activation branch (lines 557-585)

    [randomIndex] is [Math.floor(Math.random() * newVehicles.length)];
    [fuel] bounds the search of [findPath]. *)
Definition activateEmergency (fuel : nat) (randomIndex : nat)
    (prev : list Vehicle) : list Vehicle :=
  if (0 <? length prev)%nat && negb (existsb isEmergency prev) then
    match prev !! randomIndex with
    | Some vehicle =>
        let startGridX := gridIndex (vx vehicle) in
        let startGridY := gridIndex (vy vehicle) in
        let destGridX := GRID_SIZE - 1 - startGridX in
        let destGridY := GRID_SIZE - 1 - startGridY in
        match PathFinder.findPath fuel (mkCell startGridX startGridY)
                                  (mkCell destGridX destGridY) with
        | Some p =>
            if (0 <? length p)%nat then
              <[randomIndex :=
                  setRoute (Some (mkCell destGridX destGridY))
                           (Some (mkCell startGridX startGridY :: p)) true vehicle]> prev
            else prev
        | None => prev
        end
    | None => prev
    end
  else prev.

(** ** updateStats (lines 475-525)

    A JavaScript quotient by zero is [NaN] or an infinity; the embedding
    returns [None] for it, so that a statistic is [Some q] only when every
    divisor met on the way was non-zero. *)

Definition jsDiv (a b : Q) : option Q :=
  if Qeq_bool b 0 then None else Some (a / b)%Q.

(** [Math.round]: the nearest integer, halves rounded up. *)
Definition jsRound (q : Q) : Z := Qfloor (q + (1 # 2)).

(** Modelled from the spec: the type [SimulationStats] of [../types],
    restricted to the fields [updateStats] computes. *)
Record SimulationStats := mkStats {
  totalCars : nat;
  movingCars : nat;
  averageWaitTime : option Q;
  historicalWaitTime : list (Z * option Q);
  trafficDensity : list (option Q);
  totalIdleTime : Z;
  sensorAccuracy : Z;
  vehicleCounts : nat * nat * nat
}.

Definition initialStats : SimulationStats :=
  mkStats 0 0 (Some 0%Q) [] [] 0 100 (0, 0, 0)%nat.

Definition sumWaitTime (vs : list Vehicle) : Z :=
  foldl (fun acc car => acc + waitTime car) 0 vs.

Definition averageWait (vehicles : list Vehicle) : option Q :=
  let totalCars := length vehicles in
  let totalWaitTime := sumWaitTime vehicles in
  if (0 <? totalCars)%nat then
    q ← jsDiv (inject_Z totalWaitTime) (inject_Z (Z.of_nat totalCars));
    jsDiv q (inject_Z TICKS_PER_SECOND)
  else Some 0%Q.

Definition noiseFactorOf (weather : WeatherCondition) : Q :=
  match weather with Rain => 1 # 10 | Fog => 25 # 100 | Clear => 0 end.

Definition sensorAccuracyOf (weather : WeatherCondition) : Z :=
  match weather with Rain => 90 | Fog => 75 | Clear => 100 end.

(** The callback of [Array.from] (lines 510-522) for intersection [i];
    [r] is the draw of [Math.random] it makes when the noise factor is
    positive. *)
Definition densityAt (vehicles : list Vehicle) (weather : WeatherCondition)
    (r : Q) (i : Z) : option Q :=
  let intersectionX := (i mod GRID_SIZE) * CELL_SIZE in
  let intersectionY := (i / GRID_SIZE) * CELL_SIZE in
  let carsNear :=
    Z.of_nat (length (List.filter
      (fun c => hypotLt (vx c - inject_Z intersectionX)
                        (vy c - inject_Z intersectionY) CELL_SIZE) vehicles)) in
  let noiseFactor := noiseFactorOf weather in
  let carsNear :=
    if Qltb 0 noiseFactor then
      let noise := ((r - (1 # 2)) * 2 * noiseFactor * inject_Z carsNear)%Q in
      Z.max 0 (jsRound (inject_Z carsNear + noise))
    else carsNear in
  q ← jsDiv (inject_Z carsNear) (inject_Z (Z.max 1 (Z.of_nat (length vehicles))));
  Some (q * 100)%Q.

(** [arr.slice(-50)] *)
Definition lastN {A} (n : nat) (l : list A) : list A :=
  drop (length l - n) l.

(** updateStats: [tick] is [simulationTick.current] before the increment;
    the result is the incremented tick, the new statistics and, when the
    jam check is due, the new jammed segments.  The fields
    [emergencyActive] and [vehicleThroughput], which are copied from other
    cells, are left out. *)
Definition updateStats (tick : Z) (vehicles : list Vehicle)
    (weather : WeatherCondition) (rnd : Z -> Q) (prev : SimulationStats)
    : Z * SimulationStats * option (list SegmentId) :=
  let tick := tick + 1 in
  let average := averageWait vehicles in
  let history :=
    if tick mod TICKS_PER_SECOND =? 0
    then lastN 50 (historicalWaitTime prev ++ [(tick, average)])
    else historicalWaitTime prev in
  let jams :=
    if tick mod (TICKS_PER_SECOND / 2) =? 0 then Some (detectJams vehicles)
    else None in
  let density :=
    map (fun i => densityAt vehicles weather (rnd i) i)
        (range (GRID_SIZE * GRID_SIZE)) in
  (tick,
   mkStats (length vehicles)
           (length (List.filter (fun c => negb (stopped c)) vehicles))
           average history density
           (sumWaitTime (List.filter stopped vehicles))
           (sensorAccuracyOf weather)
           (length (List.filter (fun v => bool_decide (vtype v = CAR)) vehicles),
            length (List.filter (fun v => bool_decide (vtype v = BIKE)) vehicles),
            length (List.filter (fun v => bool_decide (vtype v = BUS)) vehicles)),
   jams).

(** ** The states the intersections can reach

    Per tick the scheduler calls [prioritizeEmergencyPath] and then
    [updateLights] (lines 535-536); between ticks the two commands of the
    control surface may be issued.  The vehicle list of a tick is left
    arbitrary. *)

Definition tickLights (vehicles : list Vehicle) (prev : list Intersection)
    : list Intersection :=
  updateLights (prioritizeEmergencyPath vehicles prev).

Inductive reachable : list Intersection -> Prop :=
| reach_init : reachable initialIntersections
| reach_tick vehicles s :
    reachable s -> reachable (tickLights vehicles s)
| reach_manual intersectionId axis s :
    reachable s -> reachable (setLightStateManually intersectionId axis s)
| reach_auto intersectionId s :
    reachable s -> reachable (returnToAuto intersectionId s).

(** The emergency override for heading [d] is in force: the axis of [d]
    is Green and the orthogonal axis is Red. *)
Definition overrideApplied (d : Direction) (it : Intersection) : bool :=
  let L := lights it in
  let ns := if isNS d then GREEN else RED in
  let ew := if isNS d then RED else GREEN in
  bool_decide (state (l0 L) = ns) && bool_decide (state (l1 L) = ns)
  && bool_decide (state (l2 L) = ew) && bool_decide (state (l3 L) = ew).

Definition allYellow (it : Intersection) : bool :=
  bool_decide (state (l0 (lights it)) = YELLOW)
  && bool_decide (state (l1 (lights it)) = YELLOW)
  && bool_decide (state (l2 (lights it)) = YELLOW)
  && bool_decide (state (l3 (lights it)) = YELLOW).

Definition notBothGreen (it : Intersection) : Prop :=
  nsShows GREEN it = true -> ewShows GREEN it = true -> False.

(** ** Concrete scenes used to run the code *)

(** A car in the eastbound lane of the top row, in the cell of
    intersection 0. *)
Definition eastboundCar (id : Z) (x : Z) : Vehicle :=
  mkVehicle id CAR (inject_Z x) (inject_Z 25) E (inject_Z 2)
            false 0 false None None None.

(** Emergency mode switched on with that single car on the road: it is
    routed from cell (0,0) to cell (2,2). *)
Definition emergencyScene : list Vehicle :=
  activateEmergency 14 0 [eastboundCar 0 60].

(** Intersection 1 is put under manual control (North-South Green) and
    the coordinator then requests it for the eastbound emergency
    vehicle. *)
Definition contestedIntersections : list Intersection :=
  prioritizeEmergencyPath emergencyScene
    (setLightStateManually 1 NS initialIntersections).

(** Intersection 1 of [contestedIntersections], and intersection 2, which
    is requested for the same vehicle and is not under manual control. *)
Definition manualAndEmergency : Intersection :=
  mkIntersection 1
    (mkLights (mkLight GREEN 999) (mkLight GREEN 999)
              (mkLight RED 999) (mkLight RED 999))
    true (Some E).

Definition emergencyOnly : Intersection :=
  mkIntersection 2
    (mkLights (mkLight GREEN 20) (mkLight GREEN 20)
              (mkLight RED 20) (mkLight RED 20))
    false (Some E).

(** Three cars in one lane: car 0 and car 1 are 12 units apart, car 1 and
    car 2 are 8 units apart, car 0 and car 2 are 20 units apart. *)
Definition threeCars : list Vehicle :=
  [eastboundCar 0 60; eastboundCar 1 72; eastboundCar 2 80].

(** An emergency vehicle 18 units behind an ordinary car, in the same
    lane and with the same heading. *)
Definition convoy : list Vehicle :=
  activateEmergency 14 0 [eastboundCar 0 60; eastboundCar 1 78].

Definition emergencyCar : Vehicle :=
  setRoute (Some (mkCell 2 2))
           (Some [mkCell 0 0; mkCell 1 0; mkCell 2 0; mkCell 2 1; mkCell 2 2])
           true (eastboundCar 0 60).

(** A car alone on the road whose collision flag was set at tick 5. *)
Definition flaggedCar : Vehicle :=
  setCollisionTimestamp (Some 5) (eastboundCar 0 60).

(** A car in the westbound lane of the top row, between intersections 0
    and 1, that is inside segment [Horizontal 0 0]. *)
Definition westboundCar (id : Z) (x : Z) (isStopped : bool) : Vehicle :=
  mkVehicle id CAR (inject_Z x) (inject_Z 75) W (inject_Z 2)
            isStopped 0 false None None None.

Definition queue : list Vehicle :=
  [westboundCar 0 120 true; westboundCar 1 140 true; westboundCar 2 160 false].

(** Fifty cars on the road. *)
Definition fiftyCars : list Vehicle :=
  map (fun i => eastboundCar i (60 + i)) (range 50).

(** The state of one vehicle over consecutive ticks [tick], [tick + 1],
    ... in which the collision scan does not match it: at each tick the
    first pass is applied, in the context (weather, intersections, vehicle
    list) of that tick. *)
Fixpoint followVehicle (tick : Z)
    (contexts : list (WeatherCondition * list Intersection * list Vehicle))
    (v : Vehicle) : Vehicle :=
  match contexts with
  | [] => v
  | (currentWeather, intersections, prevVehicles) :: rest =>
      followVehicle (tick + 1) rest
        (moveVehicle tick currentWeather intersections prevVehicles v)
  end.

(** Two cars in one lane, 10 units apart. *)
Definition twoCars : list Vehicle := [eastboundCar 0 60; eastboundCar 1 70].

(** The vehicle list over one tick of the scheduler (lines 537-540):
    the vehicles move, then, every [SPAWN_INTERVAL_S] seconds, a vehicle may
    be spawned.  The guard of [spawnVehicle] reads the list as it was
    rendered before the tick; its updater extends the moved list. *)
Definition SPAWN_INTERVAL_S : Z := 5.

Definition tickVehicles (tick : Z) (currentWeather : WeatherCondition)
    (intersections : list Intersection) (vehicles : list Vehicle)
    (counter : Z) (rEdge rPos rType rSpeed : Q) : list Vehicle * Z :=
  let moved :=
    survivingVehicles (moveVehicles tick currentWeather intersections vehicles) in
  if tick mod (SPAWN_INTERVAL_S * TICKS_PER_SECOND) =? 0
  then spawnVehicle vehicles moved counter rEdge rPos rType rSpeed
  else (moved, counter).

(** ** Further operations and notions used by the additional properties *)

(** The two lights of each axis show the same colour. *)
Definition axesPaired (it : Intersection) : Prop :=
  state (l0 (lights it)) = state (l1 (lights it))
  /\ state (l2 (lights it)) = state (l3 (lights it)).

(** The intersections after a run of scheduler ticks, one vehicle list
    per tick (lines 535-536, repeated). *)
Definition runLights (vehiclesPerTick : list (list Vehicle))
    (prev : list Intersection) : list Intersection :=
  foldl (fun s vehicles => tickLights vehicles s) prev vehiclesPerTick.

(** The lights a manual command writes, with all four timers at [t]. *)
Definition axisLights (axis : Axis) (t : Z) : Lights :=
  match axis with
  | NS => mkLights (mkLight GREEN t) (mkLight GREEN t) (mkLight RED t) (mkLight RED t)
  | EW => mkLights (mkLight RED t) (mkLight RED t) (mkLight GREEN t) (mkLight GREEN t)
  end.

(** The approach test of lines 291-292: the vehicle is in a grid cell and
    in the approach zone of its intersection. *)
Definition approachingIntersection (v : Vehicle) : bool :=
  (0 <=? gridIndex (vx v)) && (gridIndex (vx v) <? GRID_SIZE)
  && (0 <=? gridIndex (vy v)) && (gridIndex (vy v) <? GRID_SIZE)
  && (isNearIntersection v (vx v) true || isNearIntersection v (vy v) false).

(** A southbound car and an eastbound car, each in the approach zone of
    intersection 2. *)
Definition southboundCar : Vehicle :=
  mkVehicle 7 CAR (inject_Z 475) (inject_Z 45) S (inject_Z 2)
            false 0 false None None None.

Definition eastboundApproach : Vehicle :=
  mkVehicle 8 CAR (inject_Z 445) (inject_Z 25) E (inject_Z 2)
            false 0 false None None None.

(** toggleEmergency, deactivation branch (lines 586-589). *)
Definition deactivateEmergency (prev : list Vehicle) : list Vehicle :=
  map (setRoute None None false) prev.

(** The cells a vehicle inside the extended bounds can be in: the grid
    and the ring of cells around it. *)
Definition aroundGrid (c : Cell) : Prop :=
  -1 <= gridX c <= 3 /\ -1 <= gridY c <= 3.

Definition cellsAroundGrid : list Cell :=
  flat_map (fun x => map (fun y => mkCell x y) [-1; 0; 1; 2; 3]) [-1; 0; 1; 2; 3].

(** The search can leave [c] (it has a neighbour inside the grid) and can
    enter [e] (which lies inside the grid), or there is nothing to do. *)
Definition routeExists (c e : Cell) : bool :=
  bool_decide (c = e)
  || (PathFinder.inGridB e
      && negb (bool_decide (PathFinder.neighbors (gridX c) (gridY c) = []))).

(** The outcome of [findPath] that [routeExists] predicts. *)
Definition routeCheck (c e : Cell) : bool :=
  match PathFinder.findPath 16 c e with
  | Some p =>
      if routeExists c e then
        (Z.of_nat (length p) =? PathFinder.manhattan c e)
        && PathFinder.walkFrom c p
        && (bool_decide (c = e) || bool_decide (last p = Some e))
      else bool_decide (p = [])
  | None => false
  end.

(** The cell of a vehicle and the cell diagonally opposite (lines
    565-570). *)
Definition cellOfVehicle (v : Vehicle) : Cell :=
  mkCell (gridIndex (vx v)) (gridIndex (vy v)).

Definition oppositeCell (c : Cell) : Cell :=
  mkCell (GRID_SIZE - 1 - gridX c) (GRID_SIZE - 1 - gridY c).

(** A car waiting at the centre of the grid, and one outside the grid on
    its way in. *)
Definition centreCar : Vehicle :=
  mkVehicle 3 CAR (inject_Z 275) (inject_Z 300) S (inject_Z 2)
            false 0 false None None None.

Definition enteringCar : Vehicle :=
  mkVehicle 4 CAR (inject_Z (-20)) (inject_Z 25) E (inject_Z 2)
            false 0 false None None None.

(** The two flags computed by the vehicle view
    (src/components/TrafficGrid.tsx, lines 304-305):
    [isCollision = !!vehicle.collisionTimestamp], where a timestamp [0] is
    falsy, and [isEmergency = vehicle.isEmergency && !isCollision]. *)
Definition isCollisionShown (v : Vehicle) : bool :=
  match collisionTimestamp v with
  | Some t => negb (t =? 0)
  | None => false
  end.

Definition sirenShown (v : Vehicle) : bool :=
  isEmergency v && negb (isCollisionShown v).

(** The lanes of eastbound and of northbound traffic: the lines on which
    [spawnVehicle] places the vehicles entering from the left and from
    the bottom edge (lines 194 and 197). *)
Definition onEastboundLane (v : Vehicle) : Prop :=
  exists lane : Z, (vy v == inject_Z (lane * CELL_SIZE + 25))%Q.

Definition onNorthboundLane (v : Vehicle) : Prop :=
  exists lane : Z, (vx v == inject_Z (lane * CELL_SIZE + 25))%Q.

(** The rectangle of a jam indicator: left, top, width, height
    (src/components/TrafficGrid.tsx, lines 161-182).  The identifier
    [`H-${row}-${col}`] or [`V-${row}-${col}`], with the non-negative
    indices [detectJams] writes, is taken apart by [split('-')] and
    [parseInt]. *)
Definition jamIndicator (s : SegmentId) : Z * Z * Z * Z :=
  let buildingSize := LANE_WIDTH * 2 in
  match s with
  | Horizontal row col =>
      (col * CELL_SIZE + INTERSECTION_SIZE,
       row * CELL_SIZE + INTERSECTION_SIZE / 2,
       buildingSize, LANE_WIDTH * 2)
  | Vertical row col =>
      (col * CELL_SIZE + INTERSECTION_SIZE / 2,
       row * CELL_SIZE + INTERSECTION_SIZE,
       LANE_WIDTH * 2, buildingSize)
  end.

(** A stopped queue of three cars in the eastbound lane of the top row,
    between intersections 0 and 1. *)
Definition eastboundQueue : list Vehicle :=
  map (setStopped true) [eastboundCar 0 120; eastboundCar 1 140; eastboundCar 2 160].

(** The four lanes of a road run 25 units to either side of the line
    through the origins of the cells: [spawnVehicle] puts vehicles at
    offset 25 or 75 of a cell, in the coordinate across their heading
    (lines 191-200). *)
Definition onLane (v : Vehicle) : Prop :=
  exists lane : Z,
    (vy v == inject_Z (lane * CELL_SIZE + 25))%Q
    \/ (vy v == inject_Z (lane * CELL_SIZE + 75))%Q
    \/ (vx v == inject_Z (lane * CELL_SIZE + 25))%Q
    \/ (vx v == inject_Z (lane * CELL_SIZE + 75))%Q.

(** * Theorems *)


(** * Traffic lights *)

Section LightInvariant.

(** No operation ever lights both axes Green: [notBothGreen] holds
    initially and every operation either keeps the colours, takes a Green
    away, or writes one Green axis and one Red axis. *)

Lemma Forall_map_impl {A B} (P : A -> Prop) (R : B -> Prop) (fn : A -> B) l :
  (forall a, P a -> R (fn a)) -> Forall P l -> Forall R (map fn l).
Proof. intros Hf; induction 1; simpl; constructor; auto. Qed.

Lemma updateIntersection_notBothGreen it :
  notBothGreen it -> notBothGreen (updateIntersection it).
Proof.
  unfold notBothGreen, updateIntersection, nsShows, ewShows.
  destruct it as [i [[s0 t0] [s1 t1] [s2 t2] [s3 t3]] m e]; simpl.
  destruct m; simpl; [tauto|].
  destruct e as [d|]; simpl.
  - destruct d; simpl; intros _ H1 H2; discriminate.
  - destruct (t0 - 1 <=? 0); simpl.
    + destruct s0, s1, s2, s3; simpl; intros H H1 H2;
        try discriminate; apply H; reflexivity.
    + destruct (t0 - 1 =? _); simpl;
        destruct s0, s1, s2, s3; simpl; intros H H1 H2;
        try discriminate; apply H; reflexivity.
Qed.

Lemma clearOverride_lights i : lights (clearOverride i) = lights i.
Proof. unfold clearOverride. destruct (emergencyOverrideFor i); reflexivity. Qed.

Lemma prioritize_notBothGreen vehicles s :
  Forall notBothGreen s -> Forall notBothGreen (prioritizeEmergencyPath vehicles s).
Proof.
  intros H. unfold prioritizeEmergencyPath.
  assert (Hc : Forall notBothGreen (map clearOverride s)).
  { revert H. apply Forall_map_impl. intros it Hit.
    unfold notBothGreen, nsShows, ewShows in *.
    rewrite clearOverride_lights. exact Hit. }
  destruct (List.find isEmergency vehicles) as [ev|]; [|exact Hc].
  destruct (path ev); [|exact Hc].
  revert H. apply Forall_map_impl. intros it Hit. exact Hit.
Qed.

Lemma manual_notBothGreen intersectionId axis s :
  Forall notBothGreen s ->
  Forall notBothGreen (setLightStateManually intersectionId axis s).
Proof.
  apply Forall_map_impl. intros it Hit.
  destruct (iid it =? intersectionId); [|exact Hit].
  unfold notBothGreen, nsShows, ewShows.
  destruct axis; simpl; intros H1 H2; discriminate.
Qed.

Lemma auto_notBothGreen intersectionId s :
  Forall notBothGreen s -> Forall notBothGreen (returnToAuto intersectionId s).
Proof.
  apply Forall_map_impl. intros it Hit.
  destruct (iid it =? intersectionId); [|exact Hit].
  exact Hit.
Qed.

(** The half of the safety property that the code keeps: in every
    reachable state, overrides or not, no intersection shows Green on
    both axes. *)
Lemma reachable_never_both_green s :
  reachable s -> Forall notBothGreen s.
Proof.
  induction 1 as [|vs s _ IH|i a s _ IH|i s _ IH].
  - repeat constructor; intros H1 H2; vm_compute in H1, H2; discriminate.
  - unfold tickLights, updateLights.
    eapply Forall_map_impl; [|apply prioritize_notBothGreen, IH].
    intros it. apply updateIntersection_notBothGreen.
  - apply manual_notBothGreen, IH.
  - apply auto_notBothGreen, IH.
Qed.

End LightInvariant.

Lemma reachable_ticks vehicles n :
  reachable (Nat.iter n (tickLights vehicles) initialIntersections).
Proof. induction n; simpl; [apply reach_init | apply reach_tick, IHn]. Qed.

(** Once every light is Yellow and the timer of light 0 has run out, the
    automatic update changes no colour any more. *)
Lemma allYellow_stuck it :
  manualOverride it = false -> emergencyOverrideFor it = None ->
  allYellow it = true -> timer (l0 (lights it)) <= 0 ->
  manualOverride (updateIntersection it) = false
  /\ emergencyOverrideFor (updateIntersection it) = None
  /\ allYellow (updateIntersection it) = true
  /\ timer (l0 (lights (updateIntersection it))) <= 0.
Proof.
  destruct it as [i [[s0 t0] [s1 t1] [s2 t2] [s3 t3]] m e]; simpl.
  intros Hm He Hy Ht. subst m e. unfold updateIntersection; simpl.
  assert (Hs : (t0 - 1 <=? 0) = true) by (apply Z.leb_le; lia).
  rewrite Hs. destruct s0, s1, s2, s3; try discriminate Hy; simpl.
  repeat split; lia.
Qed.

(** After the East-West axis has turned Yellow with light 0 still Red, the
    update keeps that phase: light 0 is not Green and its timer stays
    below zero. *)
Lemma ewYellow_stuck it :
  manualOverride it = false -> emergencyOverrideFor it = None ->
  phaseOf (lights it) = Some EW_YELLOW -> timer (l0 (lights it)) <= 0 ->
  manualOverride (updateIntersection it) = false
  /\ emergencyOverrideFor (updateIntersection it) = None
  /\ phaseOf (lights (updateIntersection it)) = Some EW_YELLOW
  /\ timer (l0 (lights (updateIntersection it))) <= 0.
Proof.
  destruct it as [i [[s0 t0] [s1 t1] [s2 t2] [s3 t3]] m e]; simpl.
  intros Hm He Hy Ht. subst m e. unfold updateIntersection; simpl.
  assert (Hs : (t0 - 1 <=? 0) = true) by (apply Z.leb_le; lia).
  rewrite Hs. destruct s0, s1, s2, s3; try discriminate Hy; simpl.
  repeat split; lia.
Qed.

(** C1 (the code breaks the invariant).  The state after 25 ticks of the
    scheduler, with no vehicle and no command, is reachable; its
    intersection 0 is under neither override, and its North-South axis and
    its East-West axis are both Yellow. *)
Theorem both_axes_yellow_after_25_ticks :
  reachable (Nat.iter 25 (tickLights []) initialIntersections)
  /\ exists it,
       Nat.iter 25 (tickLights []) initialIntersections !! 0%nat = Some it
       /\ manualOverride it = false
       /\ emergencyOverrideFor it = None
       /\ nsShows YELLOW it = true
       /\ ewShows YELLOW it = true.
Proof.
  split; [apply reachable_ticks|].
  eexists. split; [vm_compute; reflexivity|].
  repeat split.
Qed.

Lemma allYellow_no_phase it : allYellow it = true -> phaseOf (lights it) = None.
Proof.
  destruct it as [i [[s0 t0] [s1 t1] [s2 t2] [s3 t3]] m e].
  unfold allYellow, phaseOf; simpl.
  destruct s0, s1, s2, s3; simpl; intros; try discriminate; reflexivity.
Qed.

(** C2 (the code breaks the cycle).  Intersection 0 starts in NS_GREEN
    with timer 20; the timer counts down through ticks 1 to 19, tick 20
    moves it to NS_YELLOW with timer 5, and tick 25 turns the East-West
    lights Yellow too instead of entering EW_GREEN: from then on all four
    lights are Yellow for ever and no phase of the cycle is shown.
    Intersection 1 starts in EW_GREEN, enters EW_YELLOW at tick 20 and
    never leaves it. *)
Theorem light_cycle_stalls :
  map (fun n => phaseTrace (Nat.iter n updateIntersection (initialIntersection 0)))
      (seq 0 20)
    = map (fun n => (Some NS_GREEN, 20 - Z.of_nat n)) (seq 0 20)
  /\ map (fun n => phaseTrace (Nat.iter n updateIntersection (initialIntersection 0)))
         (seq 20 5)
     = map (fun n => (Some NS_YELLOW, 25 - Z.of_nat n)) (seq 20 5)
  /\ (forall n,
     allYellow (Nat.iter (25 + n) updateIntersection (initialIntersection 0)) = true
     /\ phaseOf (lights (Nat.iter (25 + n) updateIntersection (initialIntersection 0)))
        = None)
  /\ (forall n,
     phaseOf (lights (Nat.iter (20 + n) updateIntersection (initialIntersection 1)))
       = Some EW_YELLOW).
Proof.
  split; [vm_compute; reflexivity|].
  split; [vm_compute; reflexivity|].
  split.
  - intros n.
    assert (H : allYellow (Nat.iter (25 + n) updateIntersection (initialIntersection 0)) = true).
    { enough (H : manualOverride (Nat.iter (25 + n) updateIntersection (initialIntersection 0)) = false
              /\ emergencyOverrideFor (Nat.iter (25 + n) updateIntersection (initialIntersection 0)) = None
              /\ allYellow (Nat.iter (25 + n) updateIntersection (initialIntersection 0)) = true
              /\ timer (l0 (lights (Nat.iter (25 + n) updateIntersection (initialIntersection 0)))) <= 0)
        by apply H.
      induction n as [|n IH].
      + vm_compute. repeat split; discriminate.
      + replace (25 + Datatypes.S n)%nat with (Datatypes.S (25 + n)) by lia.
        rewrite Nat.iter_succ. destruct IH as (H1 & H2 & H3 & H4).
        apply allYellow_stuck; assumption. }
    split; [exact H | apply allYellow_no_phase, H].
  - intros n.
    enough (H : manualOverride (Nat.iter (20 + n) updateIntersection (initialIntersection 1)) = false
              /\ emergencyOverrideFor (Nat.iter (20 + n) updateIntersection (initialIntersection 1)) = None
              /\ phaseOf (lights (Nat.iter (20 + n) updateIntersection (initialIntersection 1))) = Some EW_YELLOW
              /\ timer (l0 (lights (Nat.iter (20 + n) updateIntersection (initialIntersection 1)))) <= 0)
      by apply H.
    induction n as [|n IH].
    + vm_compute. repeat split; discriminate.
    + replace (20 + Datatypes.S n)%nat with (Datatypes.S (20 + n)) by lia.
      rewrite Nat.iter_succ. destruct IH as (H1 & H2 & H3 & H4).
      apply ewYellow_stuck; assumption.
Qed.

(** C3, as stated, fails: intersection 1 is under manual override and is
    requested for heading E at the same time, and the light update leaves
    it as the manual command set it, North-South Green and East-West Red. *)
Lemma manual_blocks_emergency_override :
  contestedIntersections !! 1%nat = Some manualAndEmergency
  /\ manualOverride manualAndEmergency = true
  /\ emergencyOverrideFor manualAndEmergency = Some E
  /\ updateLights contestedIntersections !! 1%nat = Some manualAndEmergency
  /\ overrideApplied E (updateIntersection manualAndEmergency) = false
  /\ overrideApplied N (updateIntersection manualAndEmergency) = true.
Proof. repeat split. Qed.

(** C3, amended.  For an intersection with an emergency override
    requested for heading [d]: when the manual override is set as well,
    the light update returns the intersection unchanged (the manual
    override wins); when it is not set, the update puts the axis of [d] on
    Green and the orthogonal axis on Red, and keeps the timers. *)
Theorem emergency_override_unless_manual it d :
  emergencyOverrideFor it = Some d ->
  (manualOverride it = true -> updateIntersection it = it)
  /\ (manualOverride it = false ->
      overrideApplied d (updateIntersection it) = true
      /\ map timer [l0 (lights (updateIntersection it)); l1 (lights (updateIntersection it));
                    l2 (lights (updateIntersection it)); l3 (lights (updateIntersection it))]
         = map timer [l0 (lights it); l1 (lights it); l2 (lights it); l3 (lights it)]).
Proof.
  intros He. unfold updateIntersection. rewrite He.
  split; intros Hm; rewrite Hm; [reflexivity|].
  destruct it as [i [[s0 t0] [s1 t1] [s2 t2] [s3 t3]] m e]; simpl.
  destruct d; split; reflexivity.
Qed.

Lemma emergency_override_unless_manual_witness :
  updateIntersection manualAndEmergency = manualAndEmergency
  /\ overrideApplied E (updateIntersection emergencyOnly) = true.
Proof.
  split.
  - exact (proj1 (emergency_override_unless_manual manualAndEmergency E eq_refl) eq_refl).
  - exact (proj1 (proj2 (emergency_override_unless_manual emergencyOnly E eq_refl) eq_refl)).
Defined.

(** * Path finding *)

Section PathFinderFacts.
Import PathFinder.

Lemma search_unfold fuel end_ nodes openSet :
  search (Datatypes.S fuel) end_ nodes openSet =
  match openSet with
  | [] => Some []
  | _ =>
      currentKey ← pickCurrent nodes openSet;
      if bool_decide (currentKey = keyOf end_) then
        p ← buildPath fuel nodes (Some currentKey) [];
        Some (tail p)
      else
        let openSet := List.filter (fun k => negb (bool_decide (k = currentKey))) openSet in
        currentNode ← nodes !! currentKey;
        let '(nodes, openSet) :=
          fold_left (relax end_ currentKey currentNode)
                    (neighbors (fst currentKey) (snd currentKey))
                    (nodes, openSet) in
        search fuel end_ nodes openSet
  end.
Proof. reflexivity. Qed.

(** More fuel never changes a result already obtained. *)
Lemma buildPath_more_fuel fuel nodes tempKey acc p :
  buildPath fuel nodes tempKey acc = Some p ->
  buildPath (Datatypes.S fuel) nodes tempKey acc = Some p.
Proof.
  revert tempKey acc. induction fuel as [|fuel IH]; intros [k|] acc H;
    try (simpl in H; congruence).
  - exact H.
  - cbn [buildPath] in H |- *.
    destruct (nodes !! k) as [n|]; [|discriminate H].
    simpl in H |- *. apply IH in H. exact H.
  - exact H.
Qed.

Lemma search_more_fuel fuel end_ nodes openSet p :
  search fuel end_ nodes openSet = Some p ->
  search (Datatypes.S fuel) end_ nodes openSet = Some p.
Proof.
  revert nodes openSet. induction fuel as [|fuel IH]; intros nodes openSet H.
  - discriminate H.
  - rewrite search_unfold in H. rewrite search_unfold.
    destruct openSet as [|k0 rest]; [exact H|].
    destruct (pickCurrent nodes (k0 :: rest)) as [cur|]; [|discriminate H].
    cbn [mbind option_bind] in H |- *.
    destruct (bool_decide (cur = keyOf end_)).
    + destruct (buildPath fuel nodes (Some cur) []) as [q|] eqn:Hb;
        [|discriminate H].
      rewrite (buildPath_more_fuel _ _ _ _ _ Hb). exact H.
    + destruct (nodes !! cur) as [cn|]; [|discriminate H].
      cbn [mbind option_bind] in H |- *.
      destruct (fold_left _ _ _) as [nodes' open'].
      apply IH, H.
Qed.

Lemma findPath_more_fuel n m start end_ p :
  findPath n start end_ = Some p -> (n <= m)%nat ->
  findPath m start end_ = Some p.
Proof.
  intros H Hle. induction Hle as [|m _ IH]; [exact H|].
  unfold findPath in *. apply search_more_fuel, IH.
Qed.

Lemma findPath_same_cell c fuel :
  (2 <= fuel)%nat -> findPath fuel c c = Some [].
Proof.
  intros Hf. apply (findPath_more_fuel 2); [|exact Hf].
  unfold findPath. rewrite search_unfold.
  unfold pickCurrent. cbn [foldl].
  rewrite lookup_singleton_eq. cbn [mbind option_bind].
  rewrite lookup_singleton_eq. cbn [mbind option_bind].
  rewrite Tauto.if_same.
  rewrite bool_decide_eq_true_2 by reflexivity.
  cbn [buildPath]. rewrite lookup_singleton_eq. reflexivity.
Qed.

Lemma not_In_by_forallb (a : Cell) p :
  forallb (fun c => negb (bool_decide (c = a))) p = true -> ~ In a p.
Proof.
  induction p as [|c p IH]; simpl; [tauto|].
  intros H [Hc|Hin].
  - subst c. rewrite bool_decide_eq_true_2 in H by reflexivity. discriminate H.
  - apply andb_prop in H. tauto.
Qed.

Lemma inGridB_cases c :
  inGridB c = true ->
  (gridX c = 0 \/ gridX c = 1 \/ gridX c = 2)
  /\ (gridY c = 0 \/ gridY c = 1 \/ gridY c = 2).
Proof.
  unfold inGridB, GRID_SIZE. intros H.
  repeat (apply andb_prop in H; destruct H as [H ?]).
  apply Z.leb_le in H. apply Z.ltb_lt in H0, H2. apply Z.leb_le in H1.
  lia.
Qed.

(** C7.  [findPath] at [(c, c)] returns the empty sequence, for every
    cell [c]; for cells [a] and [b] of the 3-by-3 grid it returns (with
    any fuel from 14 on) a sequence that does not contain [a], that has
    as many cells as the Manhattan distance from [a] to [b], and that is
    a walk of the grid graph from [a], ending in [b] when [a] and [b]
    differ: a shortest path. *)
Theorem findPath_shortest :
  (forall c fuel, (2 <= fuel)%nat -> findPath fuel c c = Some [])
  /\ (forall a b, inGridB a = true -> inGridB b = true ->
      exists p,
        (forall fuel, (14 <= fuel)%nat -> findPath fuel a b = Some p)
        /\ Z.of_nat (length p) = manhattan a b
        /\ ~ In a p
        /\ walkFrom a p = true
        /\ (a <> b -> last p = Some b)).
Proof.
  split; [intros c fuel; apply findPath_same_cell|].
  intros [ax ay] [bx b_y] Ha Hb.
  apply inGridB_cases in Ha, Hb. simpl in Ha, Hb.
  destruct Ha as [Hax Hay], Hb as [Hbx Hby].
  destruct Hax as [->|[->| ->]], Hay as [->|[->| ->]],
           Hbx as [->|[->| ->]], Hby as [->|[->| ->]];
    (eexists; split;
     [ intros fuel Hf; apply (findPath_more_fuel 14); [vm_compute; reflexivity | exact Hf]
     | split; [vm_compute; reflexivity|];
       split; [apply not_In_by_forallb; vm_compute; reflexivity|];
       split; [vm_compute; reflexivity|];
       first [ intros _; vm_compute; reflexivity
             | intros Hne; exfalso; apply Hne; reflexivity ] ]).
Qed.

Lemma findPath_shortest_witness :
  findPath 20 (mkCell 1 1) (mkCell 1 1) = Some []
  /\ exists p,
       (forall fuel, (14 <= fuel)%nat ->
          findPath fuel (mkCell 0 0) (mkCell 2 2) = Some p)
       /\ Z.of_nat (length p) = manhattan (mkCell 0 0) (mkCell 2 2)
       /\ ~ In (mkCell 0 0) p
       /\ walkFrom (mkCell 0 0) p = true
       /\ (mkCell 0 0 <> mkCell 2 2 -> last p = Some (mkCell 2 2)).
Proof.
  split.
  - apply (proj1 findPath_shortest). lia.
  - apply (proj2 findPath_shortest); reflexivity.
Defined.

End PathFinderFacts.

(** * Collision scan *)

Section CollisionScan.

Variable tick : Z.

Lemma vid_markCollided v : vid (markCollided tick v) = vid v.
Proof. reflexivity. Qed.

Lemma loggedIds_snoc log a b :
  loggedIds (log ++ [(a, b)]) = loggedIds log ++ [a; b].
Proof. unfold loggedIds. rewrite flat_map_app. reflexivity. Qed.

(** The nested loops visit exactly the pairs of [scanPairs], in order. *)
Lemma scanRow_pairs n st i :
  scanRow tick n st i =
  foldl (scanStep tick) st (map (fun j => (i, j)) (seq (i + 1) (n - (i + 1)))).
Proof.
  unfold scanRow. generalize (seq (i + 1) (n - (i + 1))). intros l.
  revert st. induction l as [|j l IH]; intros st; simpl; [reflexivity|apply IH].
Qed.

Lemma foldl_scanRow n l st :
  foldl (scanRow tick n) st l =
  foldl (scanStep tick) st
    (flat_map (fun i => map (fun j => (i, j)) (seq (i + 1) (n - (i + 1)))) l).
Proof.
  revert st. induction l as [|i l IH]; intros st; simpl; [reflexivity|].
  rewrite foldl_app, IH, scanRow_pairs. reflexivity.
Qed.

Lemma collisionScan_pairs moved :
  collisionScan tick moved = scanPrefix tick moved (scanPairs (length moved)).
Proof. unfold collisionScan, scanPrefix, scanPairs. apply foldl_scanRow. Qed.

Lemma elem_of_scanPairs n i j :
  (i, j) ∈ scanPairs n <-> (i < j < n)%nat.
Proof.
  unfold scanPairs. rewrite list_elem_of_In, in_flat_map. split.
  - intros (i' & Hi & Hj). apply in_map_iff in Hj as (j' & Heq & Hj').
    inversion Heq; subst. apply in_seq in Hi, Hj'. lia.
  - intros H. exists i. split; [apply in_seq; lia|].
    apply in_map_iff. exists j. split; [reflexivity|apply in_seq; lia].
Qed.

Lemma scanPrefix_snoc moved visited p :
  scanPrefix tick moved (visited ++ [p]) =
  scanStep tick (scanPrefix tick moved visited) p.
Proof. unfold scanPrefix. apply foldl_snoc. Qed.

(** One pair never shortens the log and never removes a match. *)
Lemma scanStep_grows st p :
  (exists l, collisionLog (scanStep tick st p) = collisionLog st ++ l)
  /\ collidedThisTick st ⊆ collidedThisTick (scanStep tick st p).
Proof.
  unfold scanStep, scanPair.
  destruct (movedVehicles st !! p.1) as [vehicleA|];
    [|split; [exists []; rewrite app_nil_r; reflexivity | set_solver]].
  destruct (movedVehicles st !! p.2) as [vehicleB|];
    [|split; [exists []; rewrite app_nil_r; reflexivity | set_solver]].
  destruct (_ || _);
    [split; [exists []; rewrite app_nil_r; reflexivity | set_solver]|].
  destruct (tooClose vehicleA vehicleB);
    [|split; [exists []; rewrite app_nil_r; reflexivity | set_solver]].
  simpl. split; [eexists; reflexivity | set_solver].
Qed.

Lemma scanPrefix_grows moved visited rest :
  (exists l, collisionLog (scanPrefix tick moved (visited ++ rest))
             = collisionLog (scanPrefix tick moved visited) ++ l)
  /\ collidedThisTick (scanPrefix tick moved visited)
     ⊆ collidedThisTick (scanPrefix tick moved (visited ++ rest)).
Proof.
  induction rest as [|p rest IH] using rev_ind.
  - rewrite app_nil_r. split; [exists []; rewrite app_nil_r; reflexivity | set_solver].
  - rewrite app_assoc, scanPrefix_snoc.
    destruct IH as [[l Hl] Hsub].
    destruct (scanStep_grows (scanPrefix tick moved (visited ++ rest)) p)
      as [[l' Hl'] Hsub'].
    split.
    + exists (l ++ l'). rewrite Hl', Hl, app_assoc. reflexivity.
    + set_solver.
Qed.

Lemma elem_of_added (z a b : Z) (X : gset Z) :
  z ∈ ({[b]} ∪ ({[a]} ∪ X) : gset Z) <-> z = b \/ z = a \/ z ∈ X.
Proof. rewrite !elem_of_union, !elem_of_singleton. tauto. Qed.

Variable moved : list Vehicle.
Hypothesis ids_unique : NoDup (vid <$> moved).

Lemma same_id_same_index k i v w :
  moved !! k = Some v -> moved !! i = Some w -> vid v = vid w -> k = i.
Proof.
  intros Hk Hi Heq. apply (NoDup_lookup _ _ _ (vid v) ids_unique).
  - rewrite list_lookup_fmap, Hk. reflexivity.
  - rewrite list_lookup_fmap, Hi, Heq. reflexivity.
Qed.

Lemma scanInv_init : ScanInv tick moved [] (mkScan moved ∅ []).
Proof.
  constructor; simpl.
  - intros k v Hk. rewrite Hk.
    rewrite bool_decide_eq_false_2 by apply not_elem_of_empty.
    reflexivity.
  - reflexivity.
  - intros a b H. inversion H.
  - intros z. split; intros H; [apply not_elem_of_empty in H | inversion H]; tauto.
  - constructor.
  - intros i j vehicleA vehicleB H. inversion H.
Qed.

(** A pair that changes nothing keeps the invariant as soon as it is not
    a close pair of two unmatched vehicles. *)
Lemma scanInv_skip visited st i j :
  ScanInv tick moved visited st ->
  (forall vehicleA vehicleB,
     moved !! i = Some vehicleA -> moved !! j = Some vehicleB ->
     tooClose vehicleA vehicleB = true ->
     vid vehicleA ∈ collidedThisTick st \/ vid vehicleB ∈ collidedThisTick st) ->
  ScanInv tick moved (visited ++ [(i, j)]) st.
Proof.
  intros [Hv Hlen Hs Hm Ho Hc] Hnew. constructor; try assumption.
  - intros a b Hab. destruct (Hs a b Hab) as (i' & j' & A & B & Hin & H).
    exists i', j', A, B. split; [apply elem_of_app; left; exact Hin | exact H].
  - intros i' j' A B Hin HA HB Hclose.
    apply elem_of_app in Hin as [Hin|Hin]; [eapply Hc; eassumption|].
    apply list_elem_of_singleton in Hin. inversion Hin; subst.
    apply Hnew; assumption.
Qed.

Lemma scanInv_step visited st i j :
  i <> j ->
  ScanInv tick moved visited st ->
  ScanInv tick moved (visited ++ [(i, j)]) (scanPair tick i j st).
Proof.
  intros Hij Hinv. pose proof Hinv as [Hv Hlen Hs Hm Ho Hc].
  unfold scanPair.
  destruct (movedVehicles st !! i) as [vehicleA'|] eqn:HA'.
  2:{ apply scanInv_skip; [exact Hinv|]. intros A B HA _ _.
      rewrite (Hv _ _ HA) in HA'. discriminate HA'. }
  destruct (movedVehicles st !! j) as [vehicleB'|] eqn:HB'.
  2:{ apply scanInv_skip; [exact Hinv|]. intros A B _ HB _.
      rewrite (Hv _ _ HB) in HB'. discriminate HB'. }
  assert (HiA : is_Some (moved !! i)).
  { apply lookup_lt_is_Some. rewrite <- Hlen. apply lookup_lt_is_Some. eauto. }
  assert (HjB : is_Some (moved !! j)).
  { apply lookup_lt_is_Some. rewrite <- Hlen. apply lookup_lt_is_Some. eauto. }
  destruct HiA as [vehicleA HA], HjB as [vehicleB HB].
  pose proof (Hv _ _ HA) as HA2. rewrite HA' in HA2. injection HA2 as HA2.
  pose proof (Hv _ _ HB) as HB2. rewrite HB' in HB2. injection HB2 as HB2.
  assert (HidA : vid vehicleA' = vid vehicleA).
  { rewrite HA2.
    destruct (bool_decide (vid vehicleA ∈ collidedThisTick st)); reflexivity. }
  assert (HidB : vid vehicleB' = vid vehicleB).
  { rewrite HB2.
    destruct (bool_decide (vid vehicleB ∈ collidedThisTick st)); reflexivity. }
  rewrite HidA, HidB.
  destruct (bool_decide (vid vehicleA ∈ collidedThisTick st)) eqn:HinA.
  { apply scanInv_skip; [exact Hinv|]. intros A B HA0 _ _.
    rewrite HA in HA0. injection HA0 as <-.
    left. apply bool_decide_eq_true in HinA. exact HinA. }
  destruct (bool_decide (vid vehicleB ∈ collidedThisTick st)) eqn:HinB.
  { apply scanInv_skip; [exact Hinv|]. intros A B _ HB0 _.
    rewrite HB in HB0. injection HB0 as <-.
    right. apply bool_decide_eq_true in HinB. exact HinB. }
  subst vehicleA' vehicleB'. simpl.
  apply bool_decide_eq_false in HinA, HinB.
  destruct (tooClose vehicleA vehicleB) eqn:Hclose.
  2:{ apply scanInv_skip; [exact Hinv|]. intros A B HA0 HB0 Hc0.
      rewrite HA in HA0. injection HA0 as <-.
      rewrite HB in HB0. injection HB0 as <-. congruence. }
  assert (Hli : (i < length (movedVehicles st))%nat)
    by (apply lookup_lt_is_Some; eauto).
  assert (Hlj : (j < length (movedVehicles st))%nat)
    by (apply lookup_lt_is_Some; eauto).
  assert (HAB : vid vehicleA <> vid vehicleB).
  { intros Heq. apply Hij. eapply same_id_same_index; eassumption. }
  constructor; simpl.
  - intros k v Hk.
    destruct (decide (k = j)) as [->|Hkj].
    { rewrite list_lookup_insert_eq by (rewrite length_insert; exact Hlj).
      rewrite Hk in HB. injection HB as ->.
      rewrite bool_decide_eq_true_2 by (apply elem_of_added; tauto).
      reflexivity. }
    rewrite list_lookup_insert_ne by congruence.
    destruct (decide (k = i)) as [->|Hki].
    { rewrite list_lookup_insert_eq by exact Hli.
      rewrite Hk in HA. injection HA as ->.
      rewrite bool_decide_eq_true_2 by (apply elem_of_added; tauto).
      reflexivity. }
    rewrite list_lookup_insert_ne by congruence.
    rewrite (Hv _ _ Hk). f_equal.
    assert (vid v <> vid vehicleA)
      by (intros Heq; apply Hki; eapply same_id_same_index; eassumption).
    assert (vid v <> vid vehicleB)
      by (intros Heq; apply Hkj; eapply same_id_same_index; eassumption).
    destruct (decide (vid v ∈ collidedThisTick st)) as [Hin|Hnin].
    + rewrite (bool_decide_eq_true_2 _ Hin).
      rewrite bool_decide_eq_true_2 by (apply elem_of_added; tauto).
      reflexivity.
    + rewrite (bool_decide_eq_false_2 _ Hnin).
      rewrite bool_decide_eq_false_2 by (rewrite elem_of_added; tauto).
      reflexivity.
  - rewrite !length_insert. exact Hlen.
  - intros a b Hab. apply elem_of_app in Hab as [Hab|Hab].
    + destruct (Hs a b Hab) as (i' & j' & A & B & Hin & H).
      exists i', j', A, B. split; [apply elem_of_app; left; exact Hin | exact H].
    + apply list_elem_of_singleton in Hab. inversion Hab; subst.
      exists i, j, vehicleA, vehicleB.
      split; [apply elem_of_app; right; apply list_elem_of_singleton; reflexivity|].
      repeat split; assumption.
  - intros z. rewrite loggedIds_snoc, elem_of_app, <- Hm, elem_of_added.
    rewrite elem_of_cons, list_elem_of_singleton. tauto.
  - rewrite loggedIds_snoc. apply NoDup_app. split; [exact Ho|]. split.
    + intros z Hz Hz'. apply Hm in Hz.
      apply elem_of_cons in Hz' as [->|Hz']; [tauto|].
      apply list_elem_of_singleton in Hz' as ->. tauto.
    + apply NoDup_cons. split; [|apply NoDup_singleton].
      rewrite list_elem_of_singleton. exact HAB.
  - intros i' j' A B Hin HA0 HB0 Hc0. rewrite !elem_of_added.
    apply elem_of_app in Hin as [Hin|Hin].
    + destruct (Hc _ _ _ _ Hin HA0 HB0 Hc0); tauto.
    + apply list_elem_of_singleton in Hin. inversion Hin; subst.
      rewrite HA in HA0. injection HA0 as <-. tauto.
Qed.

Lemma scanInv_prefix visited :
  (forall i j, (i, j) ∈ visited -> i <> j) ->
  ScanInv tick moved visited (scanPrefix tick moved visited).
Proof.
  induction visited as [|[i j] visited IH] using rev_ind; intros Hne.
  - apply scanInv_init.
  - rewrite scanPrefix_snoc. apply scanInv_step.
    + apply Hne. apply elem_of_app. right. apply list_elem_of_singleton. reflexivity.
    + apply IH. intros i' j' Hin. apply Hne. apply elem_of_app. left. exact Hin.
Qed.

Lemma scanInv_final :
  ScanInv tick moved (scanPairs (length moved)) (collisionScan tick moved).
Proof.
  rewrite collisionScan_pairs. apply scanInv_prefix.
  intros i j Hin. apply elem_of_scanPairs in Hin. lia.
Qed.

End CollisionScan.

(** C6.  The collision scan of a tick, run on vehicles with pairwise
    distinct identifiers.
    (1) When the scan reaches a pair that is closer than the threshold and
        of which neither vehicle is matched yet, the pair is logged and
        both vehicles hold the current tick as collision timestamp and are
        stopped when the scan ends.
    (2) At the end a vehicle is matched exactly when it carries these two
        marks; an unmatched vehicle is as the first pass left it.
    (3) Every logged pair is a pair of vehicles closer than the threshold.
    (4) The matched vehicles are those of the logged pairs.
    (5) No vehicle is in two logged pairs: at most one collision each.
    (6) No pair closer than the threshold is left with both vehicles
        unmatched. *)
Theorem collision_scan_matches_pairs tick moved :
  NoDup (vid <$> moved) ->
  (forall visited rest i j vehicleA vehicleB,
     scanPairs (length moved) = visited ++ (i, j) :: rest ->
     moved !! i = Some vehicleA -> moved !! j = Some vehicleB ->
     tooClose vehicleA vehicleB = true ->
     vid vehicleA ∉ collidedThisTick (scanPrefix tick moved visited) ->
     vid vehicleB ∉ collidedThisTick (scanPrefix tick moved visited) ->
     (vid vehicleA, vid vehicleB) ∈ collisionLog (collisionScan tick moved)
     /\ exists a b,
          movedVehicles (collisionScan tick moved) !! i = Some a
          /\ movedVehicles (collisionScan tick moved) !! j = Some b
          /\ collisionTimestamp a = Some tick /\ stopped a = true
          /\ collisionTimestamp b = Some tick /\ stopped b = true)
  /\ (forall k v, moved !! k = Some v ->
        movedVehicles (collisionScan tick moved) !! k =
          Some (if bool_decide (vid v ∈ collidedThisTick (collisionScan tick moved))
                then setStopped true (setCollisionTimestamp (Some tick) v)
                else v))
  /\ (forall a b, (a, b) ∈ collisionLog (collisionScan tick moved) ->
        exists i j vehicleA vehicleB,
          (i < j)%nat
          /\ moved !! i = Some vehicleA /\ moved !! j = Some vehicleB
          /\ a = vid vehicleA /\ b = vid vehicleB
          /\ tooClose vehicleA vehicleB = true)
  /\ (forall z, z ∈ collidedThisTick (collisionScan tick moved)
                <-> z ∈ loggedIds (collisionLog (collisionScan tick moved)))
  /\ NoDup (loggedIds (collisionLog (collisionScan tick moved)))
  /\ (forall i j vehicleA vehicleB, (i < j)%nat ->
        moved !! i = Some vehicleA -> moved !! j = Some vehicleB ->
        tooClose vehicleA vehicleB = true ->
        vid vehicleA ∈ collidedThisTick (collisionScan tick moved)
        \/ vid vehicleB ∈ collidedThisTick (collisionScan tick moved)).
Proof.
  intros Hnd.
  destruct (scanInv_final tick moved Hnd) as [Hv Hlen Hs Hm Ho Hc].
  split; [|split; [exact Hv|split; [|split; [exact Hm|split; [exact Ho|]]]]].
  - intros visited rest i j A B Hsplit HA HB Hclose HnA HnB.
    assert (Hij : (i < j < length moved)%nat).
    { apply elem_of_scanPairs. rewrite Hsplit.
      apply elem_of_app. right. apply elem_of_cons. left. reflexivity. }
    assert (Hpre : ScanInv tick moved visited (scanPrefix tick moved visited)).
    { apply scanInv_prefix; [exact Hnd|]. intros i' j' Hin.
      assert (H : (i', j') ∈ scanPairs (length moved))
        by (rewrite Hsplit; apply elem_of_app; left; exact Hin).
      apply elem_of_scanPairs in H. lia. }
    pose proof (inv_vehicles _ _ _ _ Hpre _ _ HA) as HA0.
    pose proof (inv_vehicles _ _ _ _ Hpre _ _ HB) as HB0.
    rewrite (bool_decide_eq_false_2 _ HnA) in HA0.
    rewrite (bool_decide_eq_false_2 _ HnB) in HB0.
    assert (Hstep : scanPrefix tick moved (visited ++ [(i, j)]) =
      mkScan
        (<[j := markCollided tick B]>
           (<[i := markCollided tick A]>
              (movedVehicles (scanPrefix tick moved visited))))
        ({[vid B]} ∪ ({[vid A]} ∪ collidedThisTick (scanPrefix tick moved visited)))
        (collisionLog (scanPrefix tick moved visited) ++ [(vid A, vid B)])).
    { rewrite scanPrefix_snoc. unfold scanStep, scanPair. simpl.
      rewrite HA0, HB0.
      rewrite (bool_decide_eq_false_2 _ HnA), (bool_decide_eq_false_2 _ HnB).
      simpl. rewrite Hclose. reflexivity. }
    assert (Hfinal : collisionScan tick moved =
                     scanPrefix tick moved ((visited ++ [(i, j)]) ++ rest)).
    { rewrite collisionScan_pairs, Hsplit, <- app_assoc. reflexivity. }
    destruct (scanPrefix_grows tick moved (visited ++ [(i, j)]) rest)
      as [[l Hl] Hsub].
    rewrite <- Hfinal, Hstep in Hl, Hsub. simpl in Hl, Hsub.
    assert (HinA : vid A ∈ collidedThisTick (collisionScan tick moved))
      by (apply Hsub, elem_of_added; tauto).
    assert (HinB : vid B ∈ collidedThisTick (collisionScan tick moved))
      by (apply Hsub, elem_of_added; tauto).
    split.
    + rewrite Hl. apply elem_of_app. left. apply elem_of_app. right.
      apply list_elem_of_singleton. reflexivity.
    + exists (markCollided tick A), (markCollided tick B).
      rewrite (Hv _ _ HA), (Hv _ _ HB).
      rewrite (bool_decide_eq_true_2 _ HinA), (bool_decide_eq_true_2 _ HinB).
      repeat split.
  - intros a b Hab. destruct (Hs a b Hab) as (i & j & A & B & Hin & H).
    exists i, j, A, B. apply elem_of_scanPairs in Hin. split; [lia|exact H].
  - intros i j A B Hij HA HB Hclose. apply (Hc i j); try assumption.
    apply elem_of_scanPairs. split; [lia|].
    apply lookup_lt_is_Some. eauto.
Qed.

Lemma collision_scan_matches_pairs_witness :
  NoDup (vid <$> threeCars)
  /\ (forall k v, threeCars !! k = Some v ->
        movedVehicles (collisionScan 7 threeCars) !! k =
          Some (if bool_decide (vid v ∈ collidedThisTick (collisionScan 7 threeCars))
                then setStopped true (setCollisionTimestamp (Some 7) v)
                else v))
  /\ NoDup (loggedIds (collisionLog (collisionScan 7 threeCars))).
Proof.
  assert (Hnd : NoDup (vid <$> threeCars))
    by (refine (bool_decide_unpack (NoDup (vid <$> threeCars)) _); vm_compute; exact I).
  split; [exact Hnd|].
  split.
  - exact (proj1 (proj2 (collision_scan_matches_pairs 7 threeCars Hnd))).
  - exact (proj1 (proj2 (proj2 (proj2 (proj2
             (collision_scan_matches_pairs 7 threeCars Hnd)))))).
Defined.

(** The scan on [threeCars]: cars 0 and 1 are matched; car 2, although 8
    units from car 1, is skipped because car 1 is already matched. *)
Example collision_scan_threeCars :
  collisionLog (collisionScan 7 threeCars) = [(0, 1)]
  /\ map collisionTimestamp (movedVehicles (collisionScan 7 threeCars))
     = [Some 7; Some 7; None]
  /\ map stopped (movedVehicles (collisionScan 7 threeCars))
     = [true; true; false].
Proof. repeat split. Qed.

(** The scenario of the specification: the first pass leaves [twoCars] 12
    units apart (car 0 waits behind car 1, car 1 moves on by 2), and the scan
    gives both the current tick as timestamp and stops both. *)
Example two_cars_within_threshold_collide :
  collisions (moveVehicles 7 Clear initialIntersections twoCars) = [(0, 1)]
  /\ map collisionTimestamp
       (survivingVehicles (moveVehicles 7 Clear initialIntersections twoCars))
     = [Some 7; Some 7]
  /\ map stopped
       (survivingVehicles (moveVehicles 7 Clear initialIntersections twoCars))
     = [true; true].
Proof. repeat split. Qed.

(** * Vehicle kinematics *)

Section FirstPass.

Variables (tick : Z) (currentWeather : WeatherCondition)
          (intersections : list Intersection) (prevVehicles : list Vehicle).

Lemma clearOldCollisionFlag_fields v :
  vid (clearOldCollisionFlag tick v) = vid v
  /\ isEmergency (clearOldCollisionFlag tick v) = isEmergency v
  /\ waitTime (clearOldCollisionFlag tick v) = waitTime v.
Proof.
  unfold clearOldCollisionFlag. destruct (collisionTimestamp v) as [t|]; [|tauto].
  destruct (_ && _); simpl; tauto.
Qed.

Lemma routeEmergency_fields v :
  vid (routeEmergency v) = vid v
  /\ isEmergency (routeEmergency v) = isEmergency v
  /\ waitTime (routeEmergency v) = waitTime v
  /\ collisionTimestamp (routeEmergency v) = collisionTimestamp v.
Proof.
  unfold routeEmergency. destruct (path v) as [p|]; [|tauto].
  destruct (_ && _); [|tauto].
  destruct (hypotLt _ _ _); [|tauto].
  destruct (_ && _); [|tauto].
  destruct (p !! _); simpl; tauto.
Qed.

Lemma advance_fields v :
  vid (advance currentWeather v) = vid v
  /\ stopped (advance currentWeather v) = stopped v
  /\ waitTime (advance currentWeather v) = waitTime v
  /\ collisionTimestamp (advance currentWeather v) = collisionTimestamp v.
Proof. unfold advance. destruct (direction v); simpl; tauto. Qed.

Lemma vid_moveVehicle v :
  vid (moveVehicle tick currentWeather intersections prevVehicles v) = vid v.
Proof.
  unfold moveVehicle. cbv zeta.
  destruct (stopped (setStopped _ _)); simpl.
  - rewrite (proj1 (routeEmergency_fields _)).
    apply (proj1 (clearOldCollisionFlag_fields v)).
  - rewrite (proj1 (advance_fields _)). simpl.
    rewrite (proj1 (routeEmergency_fields _)).
    apply (proj1 (clearOldCollisionFlag_fields v)).
Qed.

Lemma collisionTimestamp_moveVehicle v :
  collisionTimestamp (moveVehicle tick currentWeather intersections prevVehicles v)
  = collisionTimestamp (clearOldCollisionFlag tick v).
Proof.
  unfold moveVehicle. cbv zeta.
  destruct (stopped (setStopped _ _)); simpl.
  - apply routeEmergency_fields.
  - rewrite (proj2 (proj2 (proj2 (advance_fields _)))). simpl.
    apply routeEmergency_fields.
Qed.

(** An ordinary vehicle is stopped exactly when one of the two stop
    conditions holds. *)
Lemma ordinary_vehicle_stopped v :
  isEmergency v = false ->
  stopped (moveVehicle tick currentWeather intersections prevVehicles v)
  = stopFlag intersections prevVehicles
      (routeEmergency (clearOldCollisionFlag tick v)).
Proof.
  intros Hem. unfold moveVehicle. cbv zeta.
  assert (He : isEmergency (routeEmergency (clearOldCollisionFlag tick v)) = false).
  { rewrite (proj1 (proj2 (routeEmergency_fields _))).
    rewrite (proj1 (proj2 (clearOldCollisionFlag_fields v))). exact Hem. }
  rewrite He. simpl. rewrite andb_true_r.
  destruct (stopFlag _ _ _); simpl; [reflexivity|].
  apply advance_fields.
Qed.

(** C4, amended.  A vehicle with [isEmergency] true is never marked
    stopped by the kinematics update, whatever the lights show and
    whatever lies ahead of it: the update leaves its wait time unchanged
    and advances it along its heading. *)
Theorem emergency_vehicle_never_stopped v :
  isEmergency v = true ->
  stopped (moveVehicle tick currentWeather intersections prevVehicles v) = false
  /\ waitTime (moveVehicle tick currentWeather intersections prevVehicles v)
     = waitTime v
  /\ moveVehicle tick currentWeather intersections prevVehicles v
     = advance currentWeather
         (setStopped false (routeEmergency (clearOldCollisionFlag tick v))).
Proof.
  intros Hem.
  assert (He : isEmergency (routeEmergency (clearOldCollisionFlag tick v)) = true).
  { rewrite (proj1 (proj2 (routeEmergency_fields _))).
    rewrite (proj1 (proj2 (clearOldCollisionFlag_fields v))). exact Hem. }
  assert (Hmv : moveVehicle tick currentWeather intersections prevVehicles v
     = advance currentWeather
         (setStopped false (routeEmergency (clearOldCollisionFlag tick v)))).
  { unfold moveVehicle. cbv zeta. rewrite He. simpl. rewrite andb_false_r.
    reflexivity. }
  rewrite Hmv. split; [|split; [|reflexivity]].
  - rewrite (proj1 (proj2 (advance_fields _))). reflexivity.
  - rewrite (proj1 (proj2 (proj2 (advance_fields _)))). simpl.
    rewrite (proj1 (proj2 (proj2 (routeEmergency_fields _)))).
    apply clearOldCollisionFlag_fields.
Qed.

End FirstPass.

Lemma emergency_vehicle_never_stopped_witness :
  stopped (moveVehicle 7 Clear initialIntersections convoy emergencyCar) = false
  /\ waitTime (moveVehicle 7 Clear initialIntersections convoy emergencyCar)
     = waitTime emergencyCar
  /\ moveVehicle 7 Clear initialIntersections convoy emergencyCar
     = advance Clear
         (setStopped false (routeEmergency (clearOldCollisionFlag 7 emergencyCar))).
Proof.
  apply (emergency_vehicle_never_stopped 7 Clear initialIntersections convoy emergencyCar).
  reflexivity.
Defined.

(** C4, as stated, fails: the emergency vehicle of [convoy] has a car 18
    units ahead in its lane, inside the safety distance of 20, and is not
    at a light; the update does not mark it stopped but moves it on, from
    60 to 62. *)
Lemma emergency_vehicle_ignores_vehicle_ahead :
  convoy !! 0%nat = Some emergencyCar
  /\ isEmergency emergencyCar = true
  /\ stopAtLight initialIntersections emergencyCar = false
  /\ stopBehindVehicle convoy emergencyCar = true
  /\ stopped (moveVehicle 7 Clear initialIntersections convoy emergencyCar) = false
  /\ map stopped
       (survivingVehicles (moveVehicles 7 Clear initialIntersections convoy))
     = [false; false]
  /\ map vx
       (survivingVehicles (moveVehicles 7 Clear initialIntersections convoy))
     = [inject_Z 62; inject_Z 80].
Proof. repeat split. Qed.

(** * Collision flag *)

Lemma lookup_map {A B} (fn : A -> B) (l : list A) k :
  map fn l !! k = fn <$> (l !! k).
Proof.
  revert k. induction l as [|a l IH]; intros [|k]; simpl; try reflexivity.
  apply IH.
Qed.

Lemma ids_after_first_pass tick w ints prev :
  vid <$> map (moveVehicle tick w ints prev) prev = vid <$> prev.
Proof.
  generalize (moveVehicle tick w ints prev) (vid_moveVehicle tick w ints prev).
  intros fn Hfn. induction prev as [|a l IH]; simpl; [reflexivity|].
  rewrite Hfn. f_equal. exact IH.
Qed.

(** What the first pass does to a collision timestamp [T] other than 0:
    it is kept while [tick - T <= 10] and deleted afterwards. *)
Lemma clearOldCollisionFlag_spec tick v T :
  collisionTimestamp v = Some T -> T <> 0 ->
  collisionTimestamp (clearOldCollisionFlag tick v)
  = if tick - T <=? COLLISION_FLASH_DURATION_TICKS then Some T else None.
Proof.
  intros HT Hnz. unfold clearOldCollisionFlag. rewrite HT.
  assert (Hz : (T =? 0) = false) by (apply Z.eqb_neq; exact Hnz).
  rewrite Hz. simpl.
  destruct (Z.ltb_spec COLLISION_FLASH_DURATION_TICKS (tick - T)) as [Hlt|Hge];
    destruct (Z.leb_spec (tick - T) COLLISION_FLASH_DURATION_TICKS) as [Hle|Hgt];
    try lia; simpl; [reflexivity | exact HT].
Qed.

(** One tick: a vehicle that the collision scan of the tick does not match
    comes out of the two passes with the flag as the first pass left it. *)
Lemma collision_flag_one_tick tick w ints prev k v T :
  NoDup (vid <$> prev) ->
  prev !! k = Some v ->
  collisionTimestamp v = Some T ->
  T <> 0 ->
  vid v ∉ collidedThisTick
            (collisionScan tick (map (moveVehicle tick w ints prev) prev)) ->
  movedVehicles (collisionScan tick (map (moveVehicle tick w ints prev) prev)) !! k
    = Some (moveVehicle tick w ints prev v)
  /\ collisionTimestamp (moveVehicle tick w ints prev v)
     = if tick - T <=? COLLISION_FLASH_DURATION_TICKS then Some T else None.
Proof.
  intros Hnd Hk HT Hnz Hnot.
  assert (Hnd' : NoDup (vid <$> map (moveVehicle tick w ints prev) prev))
    by (rewrite ids_after_first_pass; exact Hnd).
  assert (Hk' : map (moveVehicle tick w ints prev) prev !! k
                = Some (moveVehicle tick w ints prev v))
    by (rewrite lookup_map, Hk; reflexivity).
  pose proof (inv_vehicles _ _ _ _ (scanInv_final tick _ Hnd') _ _ Hk') as Hv.
  rewrite vid_moveVehicle in Hv.
  rewrite (bool_decide_eq_false_2 _ Hnot) in Hv.
  split; [exact Hv|].
  rewrite collisionTimestamp_moveVehicle.
  apply clearOldCollisionFlag_spec; assumption.
Qed.

(** Once deleted, the flag is not set again by the first pass. *)
Lemma followVehicle_no_flag tick contexts v :
  collisionTimestamp v = None ->
  collisionTimestamp (followVehicle tick contexts v) = None.
Proof.
  revert tick v. induction contexts as [|[[w ints] prev] rest IH];
    intros tick v Hnone; simpl; [exact Hnone|].
  apply IH. rewrite collisionTimestamp_moveVehicle.
  unfold clearOldCollisionFlag. rewrite Hnone. exact Hnone.
Qed.

Lemma followVehicle_flag T tick contexts v :
  collisionTimestamp v = Some T -> T <> 0 ->
  collisionTimestamp (followVehicle tick contexts v)
  = match contexts with
    | [] => Some T
    | _ => if tick + Z.of_nat (length contexts) - 1 - T
              <=? COLLISION_FLASH_DURATION_TICKS
           then Some T else None
    end.
Proof.
  revert tick v. induction contexts as [|[[w ints] prev] rest IH];
    intros tick v HT Hnz; [exact HT|].
  cbn [followVehicle].
  pose proof (collisionTimestamp_moveVehicle tick w ints prev v) as Hmv.
  rewrite (clearOldCollisionFlag_spec tick v T HT Hnz) in Hmv.
  destruct (Z.leb_spec (tick - T) COLLISION_FLASH_DURATION_TICKS) as [Hle|Hgt].
  - rewrite (IH (tick + 1) _ Hmv Hnz).
    destruct rest as [|c rest].
    + simpl length.
      destruct (Z.leb_spec (tick + Z.of_nat 1 - 1 - T) COLLISION_FLASH_DURATION_TICKS);
        [reflexivity|exfalso; lia].
    + replace (tick + 1 + Z.of_nat (length (c :: rest)) - 1 - T)
        with (tick + Z.of_nat (length ((w, ints, prev) :: c :: rest)) - 1 - T)
        by (cbn [length]; lia).
      reflexivity.
  - rewrite (followVehicle_no_flag _ _ _ Hmv).
    destruct (Z.leb_spec (tick + Z.of_nat (length ((w, ints, prev) :: rest)) - 1 - T)
                         COLLISION_FLASH_DURATION_TICKS) as [Hle|_];
      [|reflexivity].
    exfalso. cbn [length] in Hle. lia.
Qed.

(** C5, amended.  Take a vehicle whose collision timestamp is [T], with
    [T] other than 0.
    (1) If the collision scan of tick [tick] does not match it (no new
        collision), it comes out of that tick with the flag kept when
        [tick - T <= 10] and deleted when [tick - T > 10].
    (2) Hence, followed over the ticks [T + 1], [T + 2], ... without a
        new collision, it still has the flag after each of the first 10
        updates and has lost it after the 11th and every later one: the
        flag is present through tick [T + 10] and absent from tick
        [T + 11] on. *)
Theorem collision_flag_lifetime :
  (forall tick w ints prev k v T,
     NoDup (vid <$> prev) ->
     prev !! k = Some v ->
     collisionTimestamp v = Some T ->
     T <> 0 ->
     vid v ∉ collidedThisTick
               (collisionScan tick (map (moveVehicle tick w ints prev) prev)) ->
     exists v',
       movedVehicles (collisionScan tick (map (moveVehicle tick w ints prev) prev)) !! k
         = Some v'
       /\ vid v' = vid v
       /\ collisionTimestamp v'
          = if tick - T <=? COLLISION_FLASH_DURATION_TICKS then Some T else None)
  /\ (forall T contexts v,
        collisionTimestamp v = Some T ->
        T <> 0 ->
        collisionTimestamp (followVehicle (T + 1) contexts v)
        = if (length contexts <=? 10)%nat then Some T else None).
Proof.
  split.
  - intros tick w ints prev k v T Hnd Hk HT Hnz Hnot.
    destruct (collision_flag_one_tick tick w ints prev k v T Hnd Hk HT Hnz Hnot)
      as [Hv Hts].
    exists (moveVehicle tick w ints prev v).
    split; [exact Hv|]. split; [apply vid_moveVehicle|exact Hts].
  - intros T contexts v HT Hnz.
    rewrite (followVehicle_flag T (T + 1) contexts v HT Hnz).
    destruct contexts as [|c rest]; [reflexivity|].
    unfold COLLISION_FLASH_DURATION_TICKS, TICKS_PER_SECOND.
    destruct (Nat.leb_spec (length (c :: rest)) 10) as [Hle|Hgt];
      destruct (Z.leb_spec (T + 1 + Z.of_nat (length (c :: rest)) - 1 - T) (1 * 10));
      try reflexivity; exfalso; lia.
Qed.

Lemma collision_flag_lifetime_witness :
  (exists v',
    movedVehicles
      (collisionScan 16 (map (moveVehicle 16 Clear initialIntersections [flaggedCar])
                             [flaggedCar])) !! 0%nat
      = Some v'
    /\ vid v' = vid flaggedCar
    /\ collisionTimestamp v'
       = if 16 - 5 <=? COLLISION_FLASH_DURATION_TICKS then Some 5 else None)
  /\ collisionTimestamp
       (followVehicle (5 + 1)
          (repeat (Clear, initialIntersections, [flaggedCar]) 10) flaggedCar)
     = Some 5
  /\ collisionTimestamp
       (followVehicle (5 + 1)
          (repeat (Clear, initialIntersections, [flaggedCar]) 11) flaggedCar)
     = None.
Proof.
  split; [|split].
  - apply (proj1 collision_flag_lifetime 16 Clear initialIntersections [flaggedCar]
             0%nat flaggedCar 5).
    + refine (bool_decide_unpack (NoDup (vid <$> [flaggedCar])) _).
      vm_compute. exact I.
    + reflexivity.
    + reflexivity.
    + discriminate.
    + refine (bool_decide_unpack (_ ∉ _) _). vm_compute. exact I.
  - apply (proj2 collision_flag_lifetime 5
             (repeat (Clear, initialIntersections, [flaggedCar]) 10) flaggedCar);
      [reflexivity | discriminate].
  - apply (proj2 collision_flag_lifetime 5
             (repeat (Clear, initialIntersections, [flaggedCar]) 11) flaggedCar);
      [reflexivity | discriminate].
Defined.

(** C5, as stated, fails: the flag of [flaggedCar] was set at tick 5; the
    car is alone on the road, so no new collision occurs; after the update
    of tick 15 the flag is still there, and the update of tick 16 is the
    first to delete it. *)
Lemma collision_flag_still_set_at_tick_15 :
  collisionTimestamp flaggedCar = Some 5
  /\ collisions (moveVehicles 15 Clear initialIntersections [flaggedCar]) = []
  /\ map collisionTimestamp
       (survivingVehicles (moveVehicles 15 Clear initialIntersections [flaggedCar]))
     = [Some 5]
  /\ map collisionTimestamp
       (survivingVehicles (moveVehicles 16 Clear initialIntersections [flaggedCar]))
     = [None].
Proof. repeat split. Qed.

(** * Jam detection *)

Lemma detectJams_iff vehicles s :
  In s (detectJams vehicles) <->
  In s allSegments /\ isJammed (vehiclesInSegment vehicles s) = true.
Proof. unfold detectJams. apply filter_In. Qed.

Lemma isJammed_iff occupants :
  isJammed occupants = true <->
  (JAM_VEHICLE_THRESHOLD <= length occupants)%nat
  /\ (JAM_STOPPED_RATIO_THRESHOLD
      <= inject_Z (Z.of_nat (stoppedCount occupants))
         / inject_Z (Z.of_nat (length occupants)))%Q.
Proof.
  unfold isJammed.
  destruct (Nat.leb_spec JAM_VEHICLE_THRESHOLD (length occupants)) as [Hge|Hlt].
  - rewrite Qle_bool_iff. tauto.
  - split; [discriminate|]. intros [H _]. lia.
Qed.

(** C8.  A segment is reported jammed if and only if it has at least 3
    occupants and the stopped ones are at least 0.66 of them; with 3
    occupants of which 2 are stopped it is reported; with at most 2
    occupants it is never reported. *)
Theorem jam_report_threshold :
  (forall vehicles s, In s allSegments ->
     (In s (detectJams vehicles) <->
      (JAM_VEHICLE_THRESHOLD <= length (vehiclesInSegment vehicles s))%nat
      /\ (JAM_STOPPED_RATIO_THRESHOLD
          <= inject_Z (Z.of_nat (stoppedCount (vehiclesInSegment vehicles s)))
             / inject_Z (Z.of_nat (length (vehiclesInSegment vehicles s))))%Q))
  /\ (forall vehicles s, In s allSegments ->
        length (vehiclesInSegment vehicles s) = 3%nat ->
        stoppedCount (vehiclesInSegment vehicles s) = 2%nat ->
        In s (detectJams vehicles))
  /\ (forall vehicles s,
        (length (vehiclesInSegment vehicles s) <= 2)%nat ->
        ~ In s (detectJams vehicles)).
Proof.
  split; [|split].
  - intros vehicles s Hs. rewrite detectJams_iff, isJammed_iff. tauto.
  - intros vehicles s Hs Hlen Hstop. apply detectJams_iff.
    split; [exact Hs|]. apply isJammed_iff. rewrite Hlen, Hstop.
    split; [unfold JAM_VEHICLE_THRESHOLD; lia|].
    unfold JAM_STOPPED_RATIO_THRESHOLD, Qle, Qdiv; simpl. lia.
  - intros vehicles s Hlen Hin. apply detectJams_iff in Hin as [_ Hj].
    apply isJammed_iff in Hj as [Hge _]. unfold JAM_VEHICLE_THRESHOLD in Hge. lia.
Qed.

Lemma jam_report_threshold_witness :
  In (Horizontal 0 0) (detectJams queue)
  /\ ~ In (Horizontal 0 0) (detectJams (firstn 2 queue)).
Proof.
  split.
  - apply (proj1 (proj2 jam_report_threshold) queue (Horizontal 0 0));
      [vm_compute; tauto | reflexivity | reflexivity].
  - apply (proj2 (proj2 jam_report_threshold) (firstn 2 queue) (Horizontal 0 0)).
    vm_compute. lia.
Defined.

(** * Spawning *)

(** C9, as stated, fails: with fifty vehicles on the road the guard
    [vehicles.length > 50] lets the spawn through, and the list has
    fifty-one vehicles afterwards. *)
Lemma spawn_at_fifty_adds_a_vehicle :
  length fiftyCars = 50%nat
  /\ length (fst (spawnVehicle fiftyCars fiftyCars 50 (1 # 2) (1 # 2) (1 # 2) (1 # 2)))
     = 51%nat.
Proof. split; reflexivity. Qed.

(** The collision scan changes no length, and the bounds filter only
    removes vehicles. *)
Lemma scanPair_length tick i j st :
  length (movedVehicles (scanPair tick i j st)) = length (movedVehicles st).
Proof.
  unfold scanPair.
  destruct (movedVehicles st !! i); [|reflexivity].
  destruct (movedVehicles st !! j); [|reflexivity].
  destruct (_ || _); [reflexivity|].
  destruct (tooClose _ _); [|reflexivity].
  simpl. rewrite !length_insert. reflexivity.
Qed.

Lemma collisionScan_length tick moved :
  length (movedVehicles (collisionScan tick moved)) = length moved.
Proof.
  rewrite collisionScan_pairs. unfold scanPrefix.
  generalize (scanPairs (length moved)). intros ps.
  induction ps as [|p ps IH] using rev_ind; [reflexivity|].
  rewrite foldl_snoc. unfold scanStep at 1. rewrite scanPair_length. exact IH.
Qed.

Lemma moveVehicles_length tick w ints prev :
  (length (survivingVehicles (moveVehicles tick w ints prev)) <= length prev)%nat.
Proof.
  unfold moveVehicles; simpl.
  etransitivity; [apply filter_length_le|].
  rewrite collisionScan_length, length_map. reflexivity.
Qed.

(** C9, amended.  The spawn adds no vehicle when the captured list has
    more than 50 vehicles, and adds exactly one (taking the next
    identifier) when it has 50 or fewer; so a tick of the scheduler that
    starts with at most 51 vehicles ends with at most 51: the population
    never exceeds 51. *)
Theorem spawn_respects_cap :
  (forall vehicles prev counter rEdge rPos rType rSpeed,
     (50 < length vehicles)%nat ->
     spawnVehicle vehicles prev counter rEdge rPos rType rSpeed = (prev, counter))
  /\ (forall vehicles prev counter rEdge rPos rType rSpeed,
        (length vehicles <= 50)%nat ->
        exists newVehicle,
          spawnVehicle vehicles prev counter rEdge rPos rType rSpeed
            = (prev ++ [newVehicle], counter + 1)
          /\ vid newVehicle = counter)
  /\ (forall tick w ints vehicles counter rEdge rPos rType rSpeed,
        (length vehicles <= 51)%nat ->
        (length (fst (tickVehicles tick w ints vehicles counter
                        rEdge rPos rType rSpeed)) <= 51)%nat).
Proof.
  assert (Hno : forall vehicles prev counter rEdge rPos rType rSpeed,
     (50 < length vehicles)%nat ->
     spawnVehicle vehicles prev counter rEdge rPos rType rSpeed = (prev, counter)).
  { intros vehicles prev counter rEdge rPos rType rSpeed H. unfold spawnVehicle.
    destruct (Nat.ltb_spec 50 (length vehicles)); [reflexivity|lia]. }
  assert (Hyes : forall vehicles prev counter rEdge rPos rType rSpeed,
      (length vehicles <= 50)%nat ->
      exists newVehicle,
        spawnVehicle vehicles prev counter rEdge rPos rType rSpeed
          = (prev ++ [newVehicle], counter + 1)
        /\ vid newVehicle = counter).
  { intros vehicles prev counter rEdge rPos rType rSpeed H. unfold spawnVehicle.
    destruct (Nat.ltb_spec 50 (length vehicles)); [lia|].
    destruct (if Qfloor (rEdge * 4) =? 0 then _ else _) as [[x y] dir].
    destruct (if Qltb rType (7 # 10) then _ else _) as [type spd].
    eexists. split; reflexivity. }
  split; [exact Hno|]. split; [exact Hyes|].
  intros tick w ints vehicles counter rEdge rPos rType rSpeed Hcap.
  pose proof (moveVehicles_length tick w ints vehicles) as Hmv.
  unfold tickVehicles. cbv zeta.
  destruct (_ =? 0); [|cbn [fst]; lia].
  destruct (Nat.le_gt_cases (length vehicles) 50) as [H|H].
  - destruct (Hyes vehicles
                (survivingVehicles (moveVehicles tick w ints vehicles))
                counter rEdge rPos rType rSpeed H) as (nv & Heq & _).
    rewrite Heq. cbn [fst]. rewrite length_app. cbn [length]. lia.
  - rewrite (Hno _ _ _ _ _ _ _ H). cbn [fst]. lia.
Qed.

Lemma spawn_respects_cap_witness :
  (exists newVehicle,
     spawnVehicle fiftyCars fiftyCars 50 (1 # 2) (1 # 2) (1 # 2) (1 # 2)
       = (fiftyCars ++ [newVehicle], 50 + 1)
     /\ vid newVehicle = 50)
  /\ spawnVehicle (eastboundCar 50 10 :: fiftyCars) fiftyCars 51
       (1 # 2) (1 # 2) (1 # 2) (1 # 2) = (fiftyCars, 51)
  /\ (length (fst (tickVehicles 100 Clear initialIntersections fiftyCars 50
                     (1 # 2) (1 # 2) (1 # 2) (1 # 2))) <= 51)%nat.
Proof.
  split; [|split].
  - apply (proj1 (proj2 spawn_respects_cap) fiftyCars fiftyCars 50
             (1 # 2) (1 # 2) (1 # 2) (1 # 2)).
    vm_compute. lia.
  - apply (proj1 spawn_respects_cap (eastboundCar 50 10 :: fiftyCars) fiftyCars 51
             (1 # 2) (1 # 2) (1 # 2) (1 # 2)).
    vm_compute. lia.
  - apply (proj2 (proj2 spawn_respects_cap) 100 Clear initialIntersections fiftyCars 50
             (1 # 2) (1 # 2) (1 # 2) (1 # 2)).
    vm_compute. lia.
Defined.

(** * Statistics *)

(** With no vehicle, an intersection sees no car; the noise, a multiple of
    that count, rounds to nothing; and the divisor is [Math.max(1, 0)]. *)
Lemma densityAt_empty weather r i : densityAt [] weather r i = Some 0%Q.
Proof.
  unfold densityAt. simpl length. cbv zeta.
  change (Z.max 1 (Z.of_nat 0)) with 1.
  assert (Hround : jsRound (inject_Z (Z.of_nat 0)
            + (r - (1 # 2)) * 2 * noiseFactorOf weather * inject_Z (Z.of_nat 0)) = 0).
  { unfold jsRound.
    assert (Heq : (inject_Z (Z.of_nat 0)
              + (r - (1 # 2)) * 2 * noiseFactorOf weather * inject_Z (Z.of_nat 0)
              + (1 # 2) == 1 # 2)%Q) by (simpl; ring).
    rewrite Heq. reflexivity. }
  rewrite Hround.
  destruct (Qltb 0 (noiseFactorOf weather)); reflexivity.
Qed.

(** C10.  With no live vehicle the statistics are computed without any
    division by zero: the average wait time is 0, and the density list has
    one entry per intersection, each of them 0. *)
Theorem stats_of_empty_road tick weather rnd prev :
  averageWaitTime (snd (fst (updateStats tick [] weather rnd prev))) = Some 0%Q
  /\ trafficDensity (snd (fst (updateStats tick [] weather rnd prev)))
     = repeat (Some 0%Q) 9
  /\ totalCars (snd (fst (updateStats tick [] weather rnd prev))) = 0%nat.
Proof.
  unfold updateStats. simpl.
  split; [reflexivity|]. split; [|reflexivity].
  rewrite !densityAt_empty. reflexivity.
Qed.

(** The guard of the average is what keeps the first quotient defined: the
    unguarded division of the total wait by the number of cars has no
    value on the empty list. *)
Example unguarded_average_undefined :
  jsDiv (inject_Z (sumWaitTime [])) (inject_Z (Z.of_nat (length (@nil Vehicle))))
  = None.
Proof. reflexivity. Qed.

(** * Additional properties: traffic lights *)

(** X1.  In every reachable state the two lights of an axis show the same
    colour, at every intersection: North with South, East with West. *)
Theorem reachable_axes_paired s :
  reachable s -> Forall axesPaired s.
Proof.
  induction 1 as [|vs s _ IH|i a s _ IH|i s _ IH].
  - repeat constructor.
  - assert (Hp : Forall axesPaired (prioritizeEmergencyPath vs s)).
    { unfold prioritizeEmergencyPath.
      assert (Hc : Forall axesPaired (map clearOverride s)).
      { revert IH. apply Forall_map_impl. intros it Hit.
        unfold axesPaired in *. rewrite clearOverride_lights. exact Hit. }
      destruct (List.find isEmergency vs) as [ev|]; [|exact Hc].
      destruct (path ev); [|exact Hc].
      revert IH. apply Forall_map_impl. intros it Hit. exact Hit. }
    unfold tickLights, updateLights. revert Hp. apply Forall_map_impl.
    intros it [H01 H23]. unfold axesPaired, updateIntersection in *.
    destruct it as [i [[s0 t0] [s1 t1] [s2 t2] [s3 t3]] m e]; simpl in *.
    subst s1 s3. destruct m; simpl; [tauto|].
    destruct e as [d|]; simpl; [tauto|].
    destruct (t0 - 1 <=? 0); simpl.
    + destruct s0; simpl; tauto.
    + destruct (t0 - 1 =? _); simpl; [|tauto].
      destruct s0; simpl; [tauto| |tauto].
      destruct s2; simpl; tauto.
  - revert IH. apply Forall_map_impl. intros it Hit.
    destruct (iid it =? i); [|exact Hit].
    unfold axesPaired. destruct a; simpl; tauto.
  - revert IH. apply Forall_map_impl. intros it Hit.
    destruct (iid it =? i); [|exact Hit].
    unfold axesPaired in *. simpl. exact Hit.
Qed.

Lemma reachable_axes_paired_witness :
  Forall axesPaired (tickLights [] initialIntersections).
Proof.
  apply reachable_axes_paired. apply reach_tick. apply reach_init.
Defined.

(** The emergency coordinator rewrites one field only. *)
Lemma prioritize_as_map vehicles prev :
  exists fn,
    prioritizeEmergencyPath vehicles prev = map fn prev
    /\ forall it, iid (fn it) = iid it
                  /\ lights (fn it) = lights it
                  /\ manualOverride (fn it) = manualOverride it.
Proof.
  unfold prioritizeEmergencyPath.
  assert (Hc : exists fn,
    map clearOverride prev = map fn prev
    /\ forall it, iid (fn it) = iid it
                  /\ lights (fn it) = lights it
                  /\ manualOverride (fn it) = manualOverride it).
  { exists clearOverride. split; [reflexivity|].
    intros it. unfold clearOverride.
    destruct (emergencyOverrideFor it); simpl; tauto. }
  destruct (List.find isEmergency vehicles) as [ev|]; [|exact Hc].
  destruct (path ev); [|exact Hc].
  eexists. split; [reflexivity|]. intros it. simpl. tauto.
Qed.

Lemma tickLights_manual vehicles prev k it :
  prev !! k = Some it -> manualOverride it = true ->
  exists it',
    tickLights vehicles prev !! k = Some it'
    /\ iid it' = iid it /\ lights it' = lights it /\ manualOverride it' = true.
Proof.
  intros Hk Hm.
  destruct (prioritize_as_map vehicles prev) as (fn & Heq & Hfn).
  unfold tickLights, updateLights. rewrite Heq, !lookup_map, Hk. simpl.
  destruct (Hfn it) as (Hi & Hl & Hman).
  exists (fn it). unfold updateIntersection. rewrite Hman, Hm.
  repeat split; congruence.
Qed.

(** X2.  An intersection under manual override keeps its lights, colours
    and timers alike, through any number of scheduler ticks, whatever
    vehicles are on the road and whatever the emergency coordinator
    requests for it. *)
Theorem manual_override_freezes_lights vehiclesPerTick prev k it :
  prev !! k = Some it ->
  manualOverride it = true ->
  exists it',
    runLights vehiclesPerTick prev !! k = Some it'
    /\ iid it' = iid it
    /\ lights it' = lights it
    /\ manualOverride it' = true.
Proof.
  revert prev it. induction vehiclesPerTick as [|vs rest IH]; intros prev it Hk Hm.
  - exists it. simpl. tauto.
  - destruct (tickLights_manual vs prev k it Hk Hm) as (it1 & Hk1 & Hi1 & Hl1 & Hm1).
    destruct (IH _ _ Hk1 Hm1) as (it2 & Hk2 & Hi2 & Hl2 & Hm2).
    exists it2. unfold runLights in *. simpl. split; [exact Hk2|].
    repeat split; congruence.
Qed.

Lemma manual_override_freezes_lights_witness :
  exists it',
    runLights [emergencyScene; []; emergencyScene]
              (setLightStateManually 1 NS initialIntersections) !! 1%nat = Some it'
    /\ iid it' = iid (mkIntersection 1 (axisLights NS 999) true None)
    /\ lights it' = lights (mkIntersection 1 (axisLights NS 999) true None)
    /\ manualOverride it' = true.
Proof.
  apply manual_override_freezes_lights; reflexivity.
Defined.

(** X3.  A manual command or a return to automatic control that names an
    identifier no intersection has changes nothing. *)
Theorem commands_on_unknown_intersection intersectionId axis prev :
  (forall it, In it prev -> iid it <> intersectionId) ->
  setLightStateManually intersectionId axis prev = prev
  /\ returnToAuto intersectionId prev = prev.
Proof.
  intros Hno. unfold setLightStateManually, returnToAuto.
  split.
  - rewrite <- (map_id prev) at 2. apply map_ext_in. intros it Hin.
    destruct (Z.eqb_spec (iid it) intersectionId) as [Heq|_]; [|reflexivity].
    destruct (Hno it Hin Heq).
  - rewrite <- (map_id prev) at 2. apply map_ext_in. intros it Hin.
    destruct (Z.eqb_spec (iid it) intersectionId) as [Heq|_]; [|reflexivity].
    destruct (Hno it Hin Heq).
Qed.

Lemma commands_on_unknown_intersection_witness :
  setLightStateManually 9 EW initialIntersections = initialIntersections
  /\ returnToAuto 9 initialIntersections = initialIntersections.
Proof.
  apply commands_on_unknown_intersection.
  intros it Hin. vm_compute in Hin.
  repeat (destruct Hin as [<-|Hin]; [discriminate|]). destruct Hin.
Defined.

(** X4.  A manual command followed by a return to automatic control
    leaves the named intersection in the Green phase of the chosen axis
    with all four timers at the green duration and no manual override; its
    emergency request and every other intersection are as before. *)
Theorem manual_then_auto intersectionId axis prev :
  returnToAuto intersectionId (setLightStateManually intersectionId axis prev)
  = map (fun it =>
           if iid it =? intersectionId
           then mkIntersection (iid it) (axisLights axis INITIAL_LIGHT_DURATION)
                               false (emergencyOverrideFor it)
           else it) prev.
Proof.
  unfold returnToAuto, setLightStateManually. rewrite map_map.
  apply map_ext. intros it.
  destruct (iid it =? intersectionId) eqn:Hid; [|rewrite Hid; reflexivity].
  simpl. rewrite Hid. destruct axis; reflexivity.
Qed.

(** X5.  The light a vehicle obeys is the one of its own heading: at an
    intersection where the emergency override for heading [d] is applied,
    a vehicle travelling on the axis of [d] is never held by the signal,
    and a vehicle in the approach zone on the other axis always is. *)
Theorem override_opens_axis intersections v it d :
  intersections !! Z.to_nat (gridIndex (vy v) * GRID_SIZE + gridIndex (vx v))
    = Some it ->
  overrideApplied d it = true ->
  (isNS (direction v) = isNS d -> stopAtLight intersections v = false)
  /\ (isNS (direction v) <> isNS d -> approachingIntersection v = true ->
      stopAtLight intersections v = true).
Proof.
  intros Hit Hov. unfold overrideApplied in Hov.
  repeat (apply andb_prop in Hov; destruct Hov as [Hov ?]).
  apply bool_decide_eq_true in Hov, H, H0, H1.
  unfold stopAtLight, approachingIntersection. rewrite Hit.
  split.
  - intros Hax.
    destruct (_ && _ && _ && _); [|reflexivity].
    destruct (_ || _); [|reflexivity].
    destruct (direction v), d; simpl in *; try discriminate Hax;
      rewrite ?Hov, ?H, ?H0, ?H1; reflexivity.
  - intros Hax Happ.
    destruct ((0 <=? gridIndex (vx v)) && (gridIndex (vx v) <? GRID_SIZE)
              && (0 <=? gridIndex (vy v)) && (gridIndex (vy v) <? GRID_SIZE));
      [|discriminate Happ].
    cbn [andb] in Happ. rewrite Happ.
    destruct (direction v), d; simpl in *; try (exfalso; apply Hax; reflexivity);
      rewrite ?Hov, ?H, ?H0, ?H1; reflexivity.
Qed.

Lemma override_opens_axis_witness :
  stopAtLight (updateLights contestedIntersections) eastboundApproach = false
  /\ stopAtLight (updateLights contestedIntersections) southboundCar = true.
Proof.
  split.
  - apply (proj1 (override_opens_axis (updateLights contestedIntersections)
                    eastboundApproach (updateIntersection emergencyOnly) E
                    eq_refl eq_refl)).
    reflexivity.
  - apply (proj2 (override_opens_axis (updateLights contestedIntersections)
                    southboundCar (updateIntersection emergencyOnly) E
                    eq_refl eq_refl)).
    + discriminate.
    + reflexivity.
Defined.

(** * Additional properties: path finding and the emergency coordinator *)

Lemma Qltb_lt a b : Qltb a b = true <-> (a < b)%Q.
Proof.
  unfold Qltb. rewrite negb_true_iff. split.
  - intros H. apply Qnot_le_lt. intros Hle.
    apply Qle_bool_iff in Hle. congruence.
  - intros H. destruct (Qle_bool b a) eqn:Hb; [|reflexivity].
    apply Qle_bool_iff in Hb. exfalso. exact (Qlt_not_le _ _ H Hb).
Qed.

Lemma gridIndex_bounds p :
  (inject_Z (-50) < p)%Q -> (p < inject_Z (GRID_SIZE * CELL_SIZE + 50))%Q ->
  -1 <= gridIndex p <= 3.
Proof.
  intros Hlo Hhi. unfold gridIndex.
  change (p / inject_Z CELL_SIZE)%Q with (p * (1 # 200))%Q.
  change (inject_Z (GRID_SIZE * CELL_SIZE + 50)) with (650 # 1) in Hhi.
  change (inject_Z (-50)) with (-50 # 1) in Hlo.
  split.
  - change (-1) with (Qfloor (- 1 # 4)). apply Qfloor_resp_le. lra.
  - change 3 with (Qfloor (13 # 4)). apply Qfloor_resp_le. lra.
Qed.

Lemma cellOfVehicle_aroundGrid v :
  inExtendedBounds v = true -> aroundGrid (cellOfVehicle v).
Proof.
  unfold inExtendedBounds. intros H.
  repeat (apply andb_prop in H; destruct H as [H ?]).
  apply Qltb_lt in H, H0, H1, H2.
  split; apply gridIndex_bounds; assumption.
Qed.

Lemma aroundGrid_In c : aroundGrid c -> In c cellsAroundGrid.
Proof.
  destruct c as [x y]. unfold aroundGrid; simpl. intros [Hx Hy].
  assert (Hx' : x = -1 \/ x = 0 \/ x = 1 \/ x = 2 \/ x = 3) by lia.
  assert (Hy' : y = -1 \/ y = 0 \/ y = 1 \/ y = 2 \/ y = 3) by lia.
  destruct Hx' as [->|[->|[->|[->| ->]]]], Hy' as [->|[->|[->|[->| ->]]]];
    vm_compute; tauto.
Qed.

Lemma routeCheck_aroundGrid c e :
  aroundGrid c -> aroundGrid e -> routeCheck c e = true.
Proof.
  intros Hc He. apply aroundGrid_In in Hc, He.
  assert (Hall : forallb (fun c => forallb (routeCheck c) cellsAroundGrid)
                         cellsAroundGrid = true) by (vm_compute; reflexivity).
  rewrite forallb_forall in Hall. specialize (Hall c Hc).
  rewrite forallb_forall in Hall. exact (Hall e He).
Qed.

(** X6.  For a start cell and a destination in the grid or in the ring
    of cells around it, [findPath] always returns (fuel 16 suffices).  When
    the destination is inside the grid and the start has a neighbour inside
    the grid, the result is a shortest walk to the destination; otherwise,
    in particular for every destination outside the grid, it is the empty
    sequence. *)
Theorem findPath_around_grid c e :
  aroundGrid c -> aroundGrid e ->
  exists p,
    (forall fuel, (16 <= fuel)%nat -> PathFinder.findPath fuel c e = Some p)
    /\ (routeExists c e = true ->
        Z.of_nat (length p) = PathFinder.manhattan c e
        /\ PathFinder.walkFrom c p = true
        /\ (c <> e -> last p = Some e))
    /\ (routeExists c e = false -> p = []).
Proof.
  intros Hc He. pose proof (routeCheck_aroundGrid c e Hc He) as Hchk.
  unfold routeCheck in Hchk.
  destruct (PathFinder.findPath 16 c e) as [p|] eqn:Hp; [|discriminate Hchk].
  exists p. split; [|split].
  - intros fuel Hf. exact (findPath_more_fuel 16 fuel c e p Hp Hf).
  - intros Hr. rewrite Hr in Hchk.
    apply andb_prop in Hchk as [Hchk Hlast].
    apply andb_prop in Hchk as [Hlen Hwalk].
    apply Z.eqb_eq in Hlen. split; [exact Hlen|]. split; [exact Hwalk|].
    intros Hne. apply orb_prop in Hlast as [Heq|Hlast].
    + apply bool_decide_eq_true in Heq. contradiction.
    + apply bool_decide_eq_true in Hlast. exact Hlast.
  - intros Hr. rewrite Hr in Hchk. apply bool_decide_eq_true in Hchk. exact Hchk.
Qed.

Lemma findPath_around_grid_witness :
  exists p,
    (forall fuel, (16 <= fuel)%nat ->
       PathFinder.findPath fuel (mkCell (-1) 0) (mkCell 2 2) = Some p)
    /\ (routeExists (mkCell (-1) 0) (mkCell 2 2) = true ->
        Z.of_nat (length p) = PathFinder.manhattan (mkCell (-1) 0) (mkCell 2 2)
        /\ PathFinder.walkFrom (mkCell (-1) 0) p = true
        /\ (mkCell (-1) 0 <> mkCell 2 2 -> last p = Some (mkCell 2 2)))
    /\ (routeExists (mkCell (-1) 0) (mkCell 2 2) = false -> p = []).
Proof.
  apply findPath_around_grid; unfold aroundGrid; simpl; lia.
Defined.

Lemma oppositeCell_aroundGrid c : aroundGrid c -> aroundGrid (oppositeCell c).
Proof. unfold aroundGrid, oppositeCell, GRID_SIZE. simpl. lia. Qed.

(** The route from a cell around the grid to the opposite cell: it
    exists exactly from the cells of the grid other than the centre. *)
Lemma route_to_opposite c :
  aroundGrid c ->
  routeExists c (oppositeCell c) = true /\ c <> oppositeCell c
  <-> PathFinder.inGridB c = true /\ c <> mkCell 1 1.
Proof.
  intros Hc. apply aroundGrid_In in Hc.
  assert (Hall : forallb (fun c =>
     bool_decide (routeExists c (oppositeCell c) = true /\ c <> oppositeCell c
                  <-> PathFinder.inGridB c = true /\ c <> mkCell 1 1))
     cellsAroundGrid = true) by (vm_compute; reflexivity).
  rewrite forallb_forall in Hall. specialize (Hall c Hc).
  apply bool_decide_eq_true in Hall. exact Hall.
Qed.

(** X7.  Emergency activation, when no vehicle holds emergency status,
    for the chosen vehicle [v] inside the extended bounds.  If [v] is in a
    grid cell other than the centre, it is marked emergency, its
    destination is the diagonally opposite cell and its path starts with
    its own cell and continues with a shortest walk to the destination; no
    other vehicle changes.  If [v] is in the centre cell or outside the
    grid, no route is found and the vehicle list is unchanged. *)
Theorem activation_routes_vehicle fuel randomIndex prev v :
  (16 <= fuel)%nat ->
  existsb isEmergency prev = false ->
  prev !! randomIndex = Some v ->
  inExtendedBounds v = true ->
  (PathFinder.inGridB (cellOfVehicle v) = true -> cellOfVehicle v <> mkCell 1 1 ->
   exists p,
     activateEmergency fuel randomIndex prev
       = <[randomIndex :=
             setRoute (Some (oppositeCell (cellOfVehicle v)))
                      (Some (cellOfVehicle v :: p)) true v]> prev
     /\ last p = Some (oppositeCell (cellOfVehicle v))
     /\ Z.of_nat (length p)
        = PathFinder.manhattan (cellOfVehicle v) (oppositeCell (cellOfVehicle v))
     /\ PathFinder.walkFrom (cellOfVehicle v) p = true)
  /\ (PathFinder.inGridB (cellOfVehicle v) = false \/ cellOfVehicle v = mkCell 1 1 ->
      activateEmergency fuel randomIndex prev = prev).
Proof.
  intros Hfuel Hnone Hv Hb.
  pose proof (cellOfVehicle_aroundGrid v Hb) as Hc.
  pose proof (oppositeCell_aroundGrid _ Hc) as Ho.
  pose proof (routeCheck_aroundGrid _ _ Hc Ho) as Hchk.
  pose proof (route_to_opposite _ Hc) as Hiff.
  unfold routeCheck in Hchk.
  destruct (PathFinder.findPath 16 (cellOfVehicle v) (oppositeCell (cellOfVehicle v)))
    as [p|] eqn:Hp; [|discriminate Hchk].
  pose proof (findPath_more_fuel 16 fuel _ _ p Hp Hfuel) as Hp'.
  assert (Hlen : (0 < length prev)%nat).
  { apply lookup_lt_Some in Hv. lia. }
  assert (Hact : activateEmergency fuel randomIndex prev =
                 if (0 <? length p)%nat
                 then <[randomIndex :=
                          setRoute (Some (oppositeCell (cellOfVehicle v)))
                                   (Some (cellOfVehicle v :: p)) true v]> prev
                 else prev).
  { unfold activateEmergency. rewrite Hnone, Hv.
    destruct (Nat.ltb_spec 0 (length prev)) as [_|Hf]; [|lia]. simpl.
    fold (cellOfVehicle v).
    change (mkCell (GRID_SIZE - 1 - gridIndex (vx v)) (GRID_SIZE - 1 - gridIndex (vy v)))
      with (oppositeCell (cellOfVehicle v)).
    rewrite Hp'. reflexivity. }
  split.
  - intros Hin Hne. destruct (proj2 Hiff (conj Hin Hne)) as [Hr Hdiff].
    rewrite Hr in Hchk.
    apply andb_prop in Hchk as [Hchk Hlast].
    apply andb_prop in Hchk as [Hl Hwalk]. apply Z.eqb_eq in Hl.
    assert (Hlastp : last p = Some (oppositeCell (cellOfVehicle v))).
    { apply orb_prop in Hlast as [Heq|Hlast].
      - apply bool_decide_eq_true in Heq. contradiction.
      - apply bool_decide_eq_true in Hlast. exact Hlast. }
    exists p. split; [|split; [exact Hlastp|split; [exact Hl|exact Hwalk]]].
    rewrite Hact. destruct p; [discriminate Hlastp|reflexivity].
  - intros Hout. rewrite Hact.
    destruct (routeExists (cellOfVehicle v) (oppositeCell (cellOfVehicle v))) eqn:Hr.
    + apply andb_prop in Hchk as [Hchk _].
      apply andb_prop in Hchk as [Hl _]. apply Z.eqb_eq in Hl.
      destruct (decide (cellOfVehicle v = oppositeCell (cellOfVehicle v))) as [Heq|Hne].
      * rewrite <- Heq in Hl. unfold PathFinder.manhattan in Hl.
        rewrite !Z.sub_diag in Hl. simpl in Hl.
        destruct p; [reflexivity|discriminate Hl].
      * destruct (proj1 Hiff (conj eq_refl Hne)) as [Hin Hc1].
        destruct Hout as [Hout|Hout]; congruence.
    + apply bool_decide_eq_true in Hchk. subst p. reflexivity.
Qed.

Lemma activation_routes_vehicle_witness :
  (exists p,
     activateEmergency 16 0 [eastboundCar 0 60; centreCar]
       = <[0%nat :=
             setRoute (Some (oppositeCell (cellOfVehicle (eastboundCar 0 60))))
                      (Some (cellOfVehicle (eastboundCar 0 60) :: p)) true
                      (eastboundCar 0 60)]> [eastboundCar 0 60; centreCar]
     /\ last p = Some (oppositeCell (cellOfVehicle (eastboundCar 0 60)))
     /\ Z.of_nat (length p)
        = PathFinder.manhattan (cellOfVehicle (eastboundCar 0 60))
                               (oppositeCell (cellOfVehicle (eastboundCar 0 60)))
     /\ PathFinder.walkFrom (cellOfVehicle (eastboundCar 0 60)) p = true)
  /\ activateEmergency 16 1 [eastboundCar 0 60; centreCar]
     = [eastboundCar 0 60; centreCar]
  /\ activateEmergency 16 0 [enteringCar] = [enteringCar].
Proof.
  split; [|split].
  - apply (proj1 (activation_routes_vehicle 16 0 [eastboundCar 0 60; centreCar]
                    (eastboundCar 0 60) (le_n 16) eq_refl eq_refl eq_refl));
      [reflexivity | discriminate].
  - apply (proj2 (activation_routes_vehicle 16 1 [eastboundCar 0 60; centreCar]
                    centreCar (le_n 16) eq_refl eq_refl eq_refl)).
    right. reflexivity.
  - apply (proj2 (activation_routes_vehicle 16 0 [enteringCar]
                    enteringCar (le_n 16) eq_refl eq_refl eq_refl)).
    left. reflexivity.
Defined.

Lemma filter_insert_length {A} (fn : A -> bool) (l : list A) i x :
  (length (List.filter fn (<[i := x]> l)) <= Datatypes.S (length (List.filter fn l)))%nat.
Proof.
  revert i. induction l as [|a l IH]; intros i; [simpl; lia|].
  destruct i as [|i]; simpl.
  - destruct (fn x), (fn a); simpl; lia.
  - specialize (IH i). destruct (fn a); simpl; lia.
Qed.

Lemma existsb_false_filter {A} (fn : A -> bool) (l : list A) :
  existsb fn l = false -> List.filter fn l = [].
Proof.
  induction l as [|a l IH]; simpl; [reflexivity|].
  destruct (fn a); simpl; [discriminate|exact IH].
Qed.

(** X8.  Emergency activation never creates a second emergency vehicle:
    afterwards at most one vehicle holds emergency status, unless several
    did before, in which case nothing changes.  The number of vehicles is
    unchanged. *)
Theorem activation_single_emergency fuel randomIndex prev :
  (length (List.filter isEmergency (activateEmergency fuel randomIndex prev))
   <= Nat.max 1 (length (List.filter isEmergency prev)))%nat
  /\ length (activateEmergency fuel randomIndex prev) = length prev.
Proof.
  unfold activateEmergency.
  destruct (_ && _) eqn:Hguard; [|split; [lia|reflexivity]].
  apply andb_prop in Hguard as [_ Hnone]. apply negb_true_iff in Hnone.
  destruct (prev !! randomIndex) as [vehicle|]; [|split; [lia|reflexivity]].
  destruct (PathFinder.findPath _ _ _) as [p|]; [|split; [lia|reflexivity]].
  destruct (0 <? length p)%nat; [|split; [lia|reflexivity]].
  split; [|apply length_insert].
  etransitivity; [apply filter_insert_length|].
  rewrite (existsb_false_filter _ _ Hnone). simpl. lia.
Qed.

(** X9.  The emergency coordinator only rewrites the override field: the
    identifiers, the lights (colours and timers) and the manual flags of
    the intersections come out as they went in, in the same order. *)
Theorem prioritize_keeps_lights vehicles prev :
  map iid (prioritizeEmergencyPath vehicles prev) = map iid prev
  /\ map lights (prioritizeEmergencyPath vehicles prev) = map lights prev
  /\ map manualOverride (prioritizeEmergencyPath vehicles prev)
     = map manualOverride prev.
Proof.
  destruct (prioritize_as_map vehicles prev) as (fn & -> & Hfn).
  rewrite !map_map.
  repeat split; apply map_ext; intros it; apply Hfn.
Qed.

Lemma find_none_of_existsb_false {A} (fn : A -> bool) (l : list A) :
  existsb fn l = false -> List.find fn l = None.
Proof.
  induction l as [|a l IH]; simpl; [reflexivity|].
  destruct (fn a); simpl; [discriminate|exact IH].
Qed.

Lemma deactivateEmergency_none prev :
  existsb isEmergency (deactivateEmergency prev) = false.
Proof.
  unfold deactivateEmergency. induction prev as [|a l IH]; simpl; [reflexivity|exact IH].
Qed.

(** X10.  When no vehicle holds emergency status the coordinator clears
    every override; this is the case after deactivation, which also
    removes the path and the destination of every vehicle and leaves all
    their other fields alone. *)
Theorem deactivation_clears_overrides :
  (forall vehicles prev,
     existsb isEmergency vehicles = false ->
     Forall (fun it => emergencyOverrideFor it = None)
            (prioritizeEmergencyPath vehicles prev))
  /\ (forall vehicles prev,
        Forall (fun it => emergencyOverrideFor it = None)
               (prioritizeEmergencyPath (deactivateEmergency vehicles) prev))
  /\ (forall vehicles,
        Forall (fun v => isEmergency v = false /\ path v = None /\ destination v = None)
               (deactivateEmergency vehicles)
        /\ map (fun v => (vid v, vtype v, vx v, vy v, direction v, speed v,
                          stopped v, waitTime v, collisionTimestamp v))
               (deactivateEmergency vehicles)
           = map (fun v => (vid v, vtype v, vx v, vy v, direction v, speed v,
                            stopped v, waitTime v, collisionTimestamp v))
                 vehicles).
Proof.
  assert (H1 : forall vehicles prev,
     existsb isEmergency vehicles = false ->
     Forall (fun it => emergencyOverrideFor it = None)
            (prioritizeEmergencyPath vehicles prev)).
  { intros vehicles prev Hnone. unfold prioritizeEmergencyPath.
    rewrite (find_none_of_existsb_false _ _ Hnone).
    apply (Forall_map_impl (fun _ => True)); [|apply Forall_forall; tauto].
    intros it _. unfold clearOverride.
    destruct (emergencyOverrideFor it) eqn:He; [reflexivity|exact He]. }
  split; [exact H1|]. split.
  - intros vehicles prev. apply H1, deactivateEmergency_none.
  - intros vehicles. unfold deactivateEmergency. split.
    + apply (Forall_map_impl (fun _ => True)); [|apply Forall_forall; tauto].
      intros v _. simpl. tauto.
    + rewrite map_map. reflexivity.
Qed.

Lemma deactivation_clears_overrides_witness :
  Forall (fun it => emergencyOverrideFor it = None)
         (prioritizeEmergencyPath [eastboundCar 0 60] contestedIntersections).
Proof.
  apply (proj1 deactivation_clears_overrides). reflexivity.
Defined.

Lemma findIndexFrom_range i gx gy p :
  findIndexFrom i gx gy p = -1
  \/ i <= findIndexFrom i gx gy p < i + Z.of_nat (length p).
Proof.
  revert i. induction p as [|c p IH]; intros i; simpl; [left; reflexivity|].
  destruct (_ && _); [right; lia|].
  destruct (IH (i + 1)) as [H|H]; [left; exact H|right; lia].
Qed.

Lemma overrideStep_dom p gx gy dir l (m : gmap Z Direction) k d :
  foldl (overrideStep p gx gy dir) m l !! k = Some d ->
  is_Some (m !! k)
  \/ exists i node, In i l /\ p !! Z.to_nat i = Some node
                    /\ k = gridY node * GRID_SIZE + gridX node.
Proof.
  revert m. induction l as [|i l IH]; intros m H; simpl in H; [left; eauto|].
  destruct (IH _ H) as [Hm|(i' & node & Hin & Hp & Hk)].
  - unfold overrideStep in Hm.
    destruct (p !! Z.to_nat i) as [node|] eqn:Hnode; [|left; exact Hm].
    destruct (decide (gridY node * GRID_SIZE + gridX node = k)) as [Heq|Hne].
    + right. exists i, node. split; [left; reflexivity|]. split; [exact Hnode|].
      symmetry. exact Heq.
    + rewrite lookup_insert_ne in Hm by exact Hne. left. exact Hm.
  - right. exists i', node. split; [right; exact Hin|]. tauto.
Qed.

(** X11.  The coordinator requests at most the next two cells of the
    path: every intersection that comes out with an override has the
    identifier of the path node at position [c + 1] or [c + 2], where [c]
    is the position of the emergency vehicle's own cell in its path ([-1]
    when the cell is not on the path). *)
Theorem overrides_only_on_next_nodes vehicles prev emergencyVehicle p it d :
  List.find isEmergency vehicles = Some emergencyVehicle ->
  path emergencyVehicle = Some p ->
  In it (prioritizeEmergencyPath vehicles prev) ->
  emergencyOverrideFor it = Some d ->
  exists i node,
    (i = findIndex (gridIndex (vx emergencyVehicle))
                   (gridIndex (vy emergencyVehicle)) p + 1
     \/ i = findIndex (gridIndex (vx emergencyVehicle))
                      (gridIndex (vy emergencyVehicle)) p + 2)
    /\ 0 <= i
    /\ p !! Z.to_nat i = Some node
    /\ iid it = gridY node * GRID_SIZE + gridX node.
Proof.
  intros Hfind Hpath Hin Hov.
  unfold prioritizeEmergencyPath in Hin. rewrite Hfind, Hpath in Hin.
  apply in_map_iff in Hin as (it0 & <- & _).
  cbn [emergencyOverrideFor iid] in Hov |- *.
  apply overrideStep_dom in Hov as [[x Hx]|(i & node & Hi & Hnode & Hk)].
  - rewrite lookup_empty in Hx. discriminate Hx.
  - apply filter_In in Hi as [Hi _].
    exists i, node.
    pose proof (findIndexFrom_range 0 (gridIndex (vx emergencyVehicle))
                  (gridIndex (vy emergencyVehicle)) p) as Hr.
    fold (findIndex (gridIndex (vx emergencyVehicle))
                    (gridIndex (vy emergencyVehicle)) p) in Hr.
    simpl in Hi. destruct Hi as [<-|[<-|[]]].
    + split; [left; reflexivity|]. split; [lia|]. split; assumption.
    + split; [right; reflexivity|]. split; [lia|]. split; assumption.
Qed.

Lemma overrides_only_on_next_nodes_witness :
  exists i node,
    (i = findIndex (gridIndex (vx emergencyCar)) (gridIndex (vy emergencyCar))
           [mkCell 0 0; mkCell 1 0; mkCell 2 0; mkCell 2 1; mkCell 2 2] + 1
     \/ i = findIndex (gridIndex (vx emergencyCar)) (gridIndex (vy emergencyCar))
              [mkCell 0 0; mkCell 1 0; mkCell 2 0; mkCell 2 1; mkCell 2 2] + 2)
    /\ 0 <= i
    /\ [mkCell 0 0; mkCell 1 0; mkCell 2 0; mkCell 2 1; mkCell 2 2] !! Z.to_nat i
       = Some node
    /\ iid manualAndEmergency = gridY node * GRID_SIZE + gridX node.
Proof.
  apply (overrides_only_on_next_nodes emergencyScene
           (setLightStateManually 1 NS initialIntersections)
           emergencyCar _ manualAndEmergency E);
    [reflexivity | reflexivity | | reflexivity].
  vm_compute. tauto.
Defined.

(** * Additional properties: movement and collisions *)

Lemma markCollided_twice tick v :
  markCollided tick (markCollided tick v) = markCollided tick v.
Proof. reflexivity. Qed.

(** Without any assumption on the identifiers: the scan leaves every
    vehicle as it was or marks it. *)
Lemma scanPair_elem tick i j st k v' :
  movedVehicles (scanPair tick i j st) !! k = Some v' ->
  exists v, movedVehicles st !! k = Some v
            /\ (v' = v \/ v' = markCollided tick v).
Proof.
  unfold scanPair.
  destruct (movedVehicles st !! i) as [vehicleA|] eqn:HA; [|eauto].
  destruct (movedVehicles st !! j) as [vehicleB|] eqn:HB; [|eauto].
  destruct (_ || _); [eauto|].
  destruct (tooClose vehicleA vehicleB); [|eauto].
  simpl. intros H.
  destruct (decide (k = j)) as [->|Hkj].
  - rewrite list_lookup_insert_eq in H
      by (rewrite length_insert; apply lookup_lt_is_Some; eauto).
    injection H as <-. eauto.
  - rewrite list_lookup_insert_ne in H by congruence.
    destruct (decide (k = i)) as [->|Hki].
    + rewrite list_lookup_insert_eq in H by (apply lookup_lt_is_Some; eauto).
      injection H as <-. eauto.
    + rewrite list_lookup_insert_ne in H by congruence. eauto.
Qed.

Lemma collisionScan_elem tick moved k v' :
  movedVehicles (collisionScan tick moved) !! k = Some v' ->
  exists v, moved !! k = Some v /\ (v' = v \/ v' = markCollided tick v).
Proof.
  rewrite collisionScan_pairs. unfold scanPrefix.
  generalize (scanPairs (length moved)). intros ps. revert v'.
  induction ps as [|p ps IH] using rev_ind; intros v' H; [simpl in H; eauto|].
  rewrite foldl_snoc in H. unfold scanStep at 1 in H.
  apply scanPair_elem in H as (v1 & H1 & Hv).
  apply IH in H1 as (v & Hk & Hv1). exists v. split; [exact Hk|].
  destruct Hv as [->| ->], Hv1 as [->| ->]; auto.
Qed.

Lemma collisionScan_ids tick moved :
  vid <$> movedVehicles (collisionScan tick moved) = vid <$> moved.
Proof.
  apply list_eq. intros k. rewrite !list_lookup_fmap.
  destruct (movedVehicles (collisionScan tick moved) !! k) as [v'|] eqn:Hk.
  - apply collisionScan_elem in Hk as (v & -> & [->| ->]); reflexivity.
  - apply lookup_ge_None in Hk. rewrite collisionScan_length in Hk.
    apply lookup_ge_None in Hk. rewrite Hk. reflexivity.
Qed.

Lemma filter_sublist_of {A} (fn : A -> bool) (l : list A) :
  List.filter fn l `sublist_of` l.
Proof.
  induction l as [|a l IH]; simpl; [constructor|].
  destruct (fn a); [apply sublist_skip|apply sublist_cons]; exact IH.
Qed.

Lemma survivors_ids_sublist tick w ints prev :
  vid <$> survivingVehicles (moveVehicles tick w ints prev)
    `sublist_of` vid <$> prev.
Proof.
  unfold moveVehicles; simpl.
  rewrite <- (ids_after_first_pass tick w ints prev).
  rewrite <- (collisionScan_ids tick (map (moveVehicle tick w ints prev) prev)).
  apply fmap_sublist, filter_sublist_of.
Qed.

(** X12.  One call of [moveVehicles] creates no vehicle and loses none
    unaccounted: the identifiers of the survivors are those of the input
    list with some removed, in the same order; every survivor lies inside
    the extended bounds; and the survivors together with the exit count
    make up the input list. *)
Theorem moveVehicles_conserves tick w ints prev :
  vid <$> survivingVehicles (moveVehicles tick w ints prev)
    `sublist_of` vid <$> prev
  /\ Forall (fun v => inExtendedBounds v = true)
            (survivingVehicles (moveVehicles tick w ints prev))
  /\ (length (survivingVehicles (moveVehicles tick w ints prev))
      + exitedVehicleCount (moveVehicles tick w ints prev) = length prev)%nat.
Proof.
  split; [apply survivors_ids_sublist|]. split.
  - unfold moveVehicles; simpl. apply Forall_forall. intros v Hin.
    apply list_elem_of_In, filter_In in Hin. tauto.
  - pose proof (moveVehicles_length tick w ints prev) as Hle.
    unfold moveVehicles in *; simpl in *.
    rewrite collisionScan_length, length_map in *. lia.
Qed.

Lemma firstPass_prelude tick v :
  vx (routeEmergency (clearOldCollisionFlag tick v)) = vx v
  /\ vy (routeEmergency (clearOldCollisionFlag tick v)) = vy v
  /\ speed (routeEmergency (clearOldCollisionFlag tick v)) = speed v
  /\ vtype (routeEmergency (clearOldCollisionFlag tick v)) = vtype v
  /\ waitTime (routeEmergency (clearOldCollisionFlag tick v)) = waitTime v.
Proof.
  assert (Hc : vx (clearOldCollisionFlag tick v) = vx v
               /\ vy (clearOldCollisionFlag tick v) = vy v
               /\ speed (clearOldCollisionFlag tick v) = speed v
               /\ vtype (clearOldCollisionFlag tick v) = vtype v
               /\ waitTime (clearOldCollisionFlag tick v) = waitTime v).
  { unfold clearOldCollisionFlag. destruct (collisionTimestamp v); [|tauto].
    destruct (_ && _); simpl; tauto. }
  revert Hc. generalize (clearOldCollisionFlag tick v). intros u Hc.
  assert (Hr : vx (routeEmergency u) = vx u /\ vy (routeEmergency u) = vy u
               /\ speed (routeEmergency u) = speed u
               /\ vtype (routeEmergency u) = vtype u
               /\ waitTime (routeEmergency u) = waitTime u).
  { unfold routeEmergency. destruct (path u) as [p|]; [|tauto].
    destruct (_ && _); [|tauto].
    destruct (hypotLt _ _ _); [|tauto].
    destruct (_ && _); [|tauto].
    destruct (p !! _); simpl; tauto. }
  destruct Hc as (? & ? & ? & ? & ?), Hr as (? & ? & ? & ? & ?).
  repeat split; congruence.
Qed.



(** The fields the first pass keeps, and the two values the wait time
    can take. *)
Lemma first_pass_accounting_core tick w ints prev v :
  (waitTime (moveVehicle tick w ints prev v) = waitTime v
   \/ waitTime (moveVehicle tick w ints prev v) = waitTime v + 1)
  /\ speed (moveVehicle tick w ints prev v) = speed v
  /\ vtype (moveVehicle tick w ints prev v) = vtype v
  /\ isEmergency (moveVehicle tick w ints prev v) = isEmergency v.
Proof.
  destruct (firstPass_prelude tick v) as (Hx & Hy & Hs & Ht & Hw).
  assert (He : isEmergency (routeEmergency (clearOldCollisionFlag tick v))
               = isEmergency v).
  { rewrite (proj1 (proj2 (routeEmergency_fields _))).
    apply (clearOldCollisionFlag_fields tick v). }
  unfold moveVehicle. cbv zeta.
  revert Hs Ht Hw He.
  generalize (routeEmergency (clearOldCollisionFlag tick v)). intros u Hs Ht Hw He.
  generalize (stopFlag ints prev u && negb (isEmergency u)). intros b.
  destruct b; cbn [stopped setStopped].
  - simpl. split; [right; congruence|]. repeat split; congruence.
  - unfold advance. cbn [direction setStopped].
    destruct (direction u); simpl;
      (split; [left; congruence|]); repeat split; congruence.
Qed.

(** X14.  Through both passes of [moveVehicles], every survivor descends
    from a vehicle of the input list with the same identifier, type, speed
    and emergency status, and its wait time is that vehicle's or one tick
    more: wait times never decrease and never jump. *)
Theorem survivors_descend tick w ints prev v' :
  In v' (survivingVehicles (moveVehicles tick w ints prev)) ->
  exists v,
    In v prev
    /\ vid v' = vid v /\ vtype v' = vtype v /\ speed v' = speed v
    /\ isEmergency v' = isEmergency v
    /\ waitTime v <= waitTime v' <= waitTime v + 1.
Proof.
  unfold moveVehicles; simpl. intros Hin.
  apply filter_In in Hin as [Hin _].
  apply list_elem_of_In, list_elem_of_lookup in Hin as [k Hk].
  apply collisionScan_elem in Hk as (m & Hm & Hv').
  rewrite lookup_map in Hm.
  destruct (prev !! k) as [v|] eqn:Hv; [|discriminate Hm].
  injection Hm as <-.
  exists v. split; [apply list_elem_of_In, list_elem_of_lookup; eauto|].
  assert (Hfields : vid v' = vid (moveVehicle tick w ints prev v)
                    /\ vtype v' = vtype (moveVehicle tick w ints prev v)
                    /\ speed v' = speed (moveVehicle tick w ints prev v)
                    /\ isEmergency v' = isEmergency (moveVehicle tick w ints prev v)
                    /\ waitTime v' = waitTime (moveVehicle tick w ints prev v)).
  { destruct Hv' as [->| ->]; simpl; tauto. }
  destruct Hfields as (-> & -> & -> & -> & ->).
  destruct (first_pass_accounting_core tick w ints prev v) as (Hw & Hs & Ht & He).
  rewrite vid_moveVehicle. repeat split; try assumption; lia.
Qed.

Lemma survivors_descend_witness :
  exists v,
    In v twoCars
    /\ vid (markCollided 7 (moveVehicle 7 Clear initialIntersections twoCars
                              (eastboundCar 0 60))) = vid v
    /\ vtype (markCollided 7 (moveVehicle 7 Clear initialIntersections twoCars
                                (eastboundCar 0 60))) = vtype v
    /\ speed (markCollided 7 (moveVehicle 7 Clear initialIntersections twoCars
                                (eastboundCar 0 60))) = speed v
    /\ isEmergency (markCollided 7 (moveVehicle 7 Clear initialIntersections twoCars
                                      (eastboundCar 0 60))) = isEmergency v
    /\ waitTime v
       <= waitTime (markCollided 7 (moveVehicle 7 Clear initialIntersections twoCars
                                      (eastboundCar 0 60)))
       <= waitTime v + 1.
Proof.
  apply (survivors_descend 7 Clear initialIntersections twoCars).
  vm_compute. left. reflexivity.
Defined.

Lemma Qltb_asym a b : Qltb a b = true -> Qltb b a = false.
Proof.
  intros H. apply Qltb_lt in H.
  destruct (Qltb b a) eqn:Hb; [|reflexivity].
  apply Qltb_lt in Hb. exfalso. exact (Qlt_irrefl _ (Qlt_trans _ _ _ H Hb)).
Qed.

(** X15.  The vehicle-ahead rule cannot make two vehicles with the same
    heading wait for each other: when one is held by the other, the other
    is not held by the first. *)
Theorem no_mutual_blocking a b :
  direction a = direction b ->
  blockedBy a b = true ->
  blockedBy b a = false.
Proof.
  unfold blockedBy. intros Hd.
  rewrite (Z.eqb_sym (vid b) (vid a)).
  destruct (vid a =? vid b); [discriminate|].
  destruct (hypotLt (vx a - vx b) (vy a - vy b) (safetyDistance a));
    [|discriminate].
  destruct (hypotLt (vx b - vx a) (vy b - vy a) (safetyDistance b));
    [|reflexivity].
  rewrite <- Hd. destruct (direction a); apply Qltb_asym.
Qed.

Lemma no_mutual_blocking_witness :
  blockedBy (eastboundCar 1 70) (eastboundCar 0 60) = false.
Proof.
  apply (no_mutual_blocking (eastboundCar 0 60) (eastboundCar 1 70));
    reflexivity.
Defined.

(** X16.  The collision test does not depend on which of the two
    vehicles is taken first. *)
Theorem tooClose_symmetric a b : tooClose a b = tooClose b a.
Proof.
  unfold tooClose, hypotLt, Qltb. f_equal.
  assert (Heq : ((vx a - vx b) * (vx a - vx b) + (vy b - vy a) * (vy b - vy a)
                 == (vx b - vx a) * (vx b - vx a) + (vy a - vy b) * (vy a - vy b))%Q)
    by ring.
  rewrite Heq. reflexivity.
Qed.

(** The two cases of the spawn guard. *)
Lemma spawn_guard :
  (forall vehicles prev counter rEdge rPos rType rSpeed,
     (50 < length vehicles)%nat ->
     spawnVehicle vehicles prev counter rEdge rPos rType rSpeed = (prev, counter))
  /\ (forall vehicles prev counter rEdge rPos rType rSpeed,
        (length vehicles <= 50)%nat ->
        exists newVehicle,
          spawnVehicle vehicles prev counter rEdge rPos rType rSpeed
            = (prev ++ [newVehicle], counter + 1)
          /\ vid newVehicle = counter).
Proof.
  split.
  - intros vehicles prev counter rEdge rPos rType rSpeed H. unfold spawnVehicle.
    destruct (Nat.ltb_spec 50 (length vehicles)); [reflexivity|lia].
  - intros vehicles prev counter rEdge rPos rType rSpeed H. unfold spawnVehicle.
    destruct (Nat.ltb_spec 50 (length vehicles)); [lia|].
    destruct (if Qfloor (rEdge * 4) =? 0 then _ else _) as [[x y] dir].
    destruct (if Qltb rType (7 # 10) then _ else _) as [type spd].
    eexists. split; reflexivity.
Qed.

(** X17.  Identifiers stay unique.  If the vehicles have pairwise
    distinct identifiers, all below the counter, then after a scheduler
    tick (movement, then the possible spawn) they still have, the counter
    has not decreased, and it has grown by exactly the number of vehicles
    spawned, at most one. *)
Theorem tick_keeps_ids_unique tick w ints vehicles counter rEdge rPos rType rSpeed :
  NoDup (vid <$> vehicles) ->
  Forall (fun i => i < counter) (vid <$> vehicles) ->
  NoDup (vid <$> fst (tickVehicles tick w ints vehicles counter
                        rEdge rPos rType rSpeed))
  /\ Forall (fun i => i < snd (tickVehicles tick w ints vehicles counter
                                 rEdge rPos rType rSpeed))
            (vid <$> fst (tickVehicles tick w ints vehicles counter
                            rEdge rPos rType rSpeed))
  /\ counter <= snd (tickVehicles tick w ints vehicles counter
                       rEdge rPos rType rSpeed) <= counter + 1.
Proof.
  intros Hnd Hlt.
  pose proof (survivors_ids_sublist tick w ints vehicles) as Hsub.
  assert (Hnd' : NoDup (vid <$> survivingVehicles (moveVehicles tick w ints vehicles)))
    by (eapply sublist_NoDup; eassumption).
  assert (Hlt' : Forall (fun i => i < counter)
                   (vid <$> survivingVehicles (moveVehicles tick w ints vehicles))).
  { apply Forall_forall. intros i Hi.
    rewrite Forall_forall in Hlt. apply Hlt. eapply elem_of_sublist; eassumption. }
  unfold tickVehicles. cbv zeta.
  destruct (_ =? 0); [|cbn [fst snd]; split; [exact Hnd'|split; [exact Hlt'|lia]]].
  destruct (Nat.le_gt_cases (length vehicles) 50) as [H|H].
  - destruct (proj2 spawn_guard
                vehicles (survivingVehicles (moveVehicles tick w ints vehicles))
                counter rEdge rPos rType rSpeed H) as (nv & Heq & Hid).
    rewrite Heq. cbn [fst snd]. rewrite fmap_app. simpl. rewrite Hid.
    split; [|split; [|lia]].
    + apply NoDup_app. split; [exact Hnd'|]. split; [|apply NoDup_singleton].
      intros i Hi Hc. apply list_elem_of_singleton in Hc. subst i.
      rewrite Forall_forall in Hlt'. specialize (Hlt' _ Hi). lia.
    + apply Forall_app. split.
      * eapply Forall_impl; [exact Hlt'|]. intros i Hi. simpl in Hi. lia.
      * repeat constructor. lia.
  - rewrite (proj1 spawn_guard _ _ _ _ _ _ _ H). cbn [fst snd].
    split; [exact Hnd'|split; [exact Hlt'|lia]].
Qed.

Lemma tick_keeps_ids_unique_witness :
  NoDup (vid <$> fst (tickVehicles 100 Clear initialIntersections twoCars 2
                        (1 # 2) (1 # 2) (1 # 2) (1 # 2)))
  /\ Forall (fun i => i < snd (tickVehicles 100 Clear initialIntersections twoCars 2
                                 (1 # 2) (1 # 2) (1 # 2) (1 # 2)))
            (vid <$> fst (tickVehicles 100 Clear initialIntersections twoCars 2
                            (1 # 2) (1 # 2) (1 # 2) (1 # 2)))
  /\ 2 <= snd (tickVehicles 100 Clear initialIntersections twoCars 2
                 (1 # 2) (1 # 2) (1 # 2) (1 # 2)) <= 2 + 1.
Proof.
  apply tick_keeps_ids_unique.
  - refine (bool_decide_unpack (NoDup (vid <$> twoCars)) _). vm_compute. exact I.
  - repeat constructor.
Defined.

(** X18.  What the vehicle view shows after a tick.  A survivor of
    [moveVehicles] that is drawn as collided carries a timestamp other
    than 0 that is at most 10 ticks old, whether the collision is new or
    not; and a vehicle drawn as collided never shows the siren. *)
Theorem collision_display_is_recent tick w ints prev v' :
  In v' (survivingVehicles (moveVehicles tick w ints prev)) ->
  isCollisionShown v' = true ->
  sirenShown v' = false
  /\ exists T, collisionTimestamp v' = Some T /\ T <> 0
               /\ tick - T <= COLLISION_FLASH_DURATION_TICKS.
Proof.
  unfold moveVehicles; simpl. intros Hin Hshown.
  split; [unfold sirenShown; rewrite Hshown; apply andb_false_r|].
  apply filter_In in Hin as [Hin _].
  apply list_elem_of_In, list_elem_of_lookup in Hin as [k Hk].
  apply collisionScan_elem in Hk as (m & Hm & Hv').
  rewrite lookup_map in Hm.
  destruct (prev !! k) as [v|] eqn:Hv; [|discriminate Hm].
  injection Hm as <-.
  unfold isCollisionShown in Hshown.
  destruct Hv' as [->| ->].
  - rewrite collisionTimestamp_moveVehicle in *.
    unfold clearOldCollisionFlag in *.
    destruct (collisionTimestamp v) as [T|] eqn:HT; [|rewrite HT in Hshown; discriminate].
    destruct (negb (T =? 0)) eqn:Hz; simpl in *.
    + destruct (Z.ltb_spec COLLISION_FLASH_DURATION_TICKS (tick - T)) as [Hlt|Hge];
        simpl in *; [discriminate Hshown|].
      rewrite HT in *. exists T.
      apply negb_true_iff, Z.eqb_neq in Hz. tauto.
    + rewrite HT, Hz in Hshown. discriminate Hshown.
  - simpl in *. exists tick. apply negb_true_iff, Z.eqb_neq in Hshown.
    unfold COLLISION_FLASH_DURATION_TICKS, TICKS_PER_SECOND.
    repeat split; [exact Hshown|lia].
Qed.

Lemma collision_display_is_recent_witness :
  sirenShown (markCollided 7 (moveVehicle 7 Clear initialIntersections twoCars
                                (eastboundCar 0 60))) = false
  /\ exists T,
       collisionTimestamp
         (markCollided 7 (moveVehicle 7 Clear initialIntersections twoCars
                            (eastboundCar 0 60))) = Some T
       /\ T <> 0 /\ 7 - T <= COLLISION_FLASH_DURATION_TICKS.
Proof.
  apply (collision_display_is_recent 7 Clear initialIntersections twoCars).
  - vm_compute. left. reflexivity.
  - reflexivity.
Defined.

(** * Additional properties: spawning *)




(** * Additional properties: jam detection *)

Lemma inRect_bounds r v :
  inRect r v = true ->
  (inject_Z (xMin r) < vx v)%Q /\ (vx v < inject_Z (xMax r))%Q
  /\ (inject_Z (yMin r) < vy v)%Q /\ (vy v < inject_Z (yMax r))%Q.
Proof.
  unfold inRect. intros H.
  repeat (apply andb_prop in H; destruct H as [H ?]).
  apply Qltb_lt in H, H0, H1, H2. tauto.
Qed.

Lemma lane_outside_segments s v :
  onEastboundLane v \/ onNorthboundLane v ->
  inRect (segmentRect s) v = false.
Proof.
  intros Hlane. destruct (inRect (segmentRect s) v) eqn:Hin; [|reflexivity].
  exfalso. apply inRect_bounds in Hin as (Hx1 & Hx2 & Hy1 & Hy2).
  destruct Hlane as [[lane Hl]|[lane Hl]].
  - rewrite Hl in Hy1, Hy2. rewrite <- Zlt_Qlt in Hy1, Hy2.
    destruct s as [i j|i j]; simpl in Hy1, Hy2;
      unfold CELL_SIZE, INTERSECTION_SIZE, LANE_WIDTH in *;
      change (100 / 2) with 50 in *; lia.
  - rewrite Hl in Hx1, Hx2. rewrite <- Zlt_Qlt in Hx1, Hx2.
    destruct s as [i j|i j]; simpl in Hx1, Hx2;
      unfold CELL_SIZE, INTERSECTION_SIZE, LANE_WIDTH in *;
      change (100 / 2) with 50 in *; lia.
Qed.

(** X20.  The measured rectangles leave out two of the four lanes.  A
    vehicle on an eastbound lane (25 units below the top of its row) or on
    a northbound lane (25 units right of the left of its column) is an
    occupant of no segment; so a list made of such vehicles, however many
    of them are stopped, is never reported as a jam. *)
Theorem eastbound_northbound_never_jammed :
  (forall s v, onEastboundLane v \/ onNorthboundLane v ->
     inRect (segmentRect s) v = false)
  /\ (forall vehicles,
        Forall (fun v => onEastboundLane v \/ onNorthboundLane v) vehicles ->
        detectJams vehicles = []).
Proof.
  split; [exact lane_outside_segments|].
  intros vehicles Hall. unfold detectJams.
  assert (Hocc : forall s, vehiclesInSegment vehicles s = []).
  { intros s. unfold vehiclesInSegment.
    induction Hall as [|v l Hv _ IH]; simpl; [reflexivity|].
    rewrite (lane_outside_segments s v Hv). exact IH. }
  induction allSegments as [|s l IH]; simpl; [reflexivity|].
  rewrite Hocc. simpl. exact IH.
Qed.

Lemma eastbound_northbound_never_jammed_witness :
  detectJams eastboundQueue = [].
Proof.
  apply (proj2 eastbound_northbound_never_jammed).
  unfold eastboundQueue. simpl.
  do 3 (apply Forall_cons; split; [left; exists 0; reflexivity|]).
  apply Forall_nil. exact I.
Defined.

(** X21.  For every segment identifier that [detectJams] can report, the
    rectangle drawn for the jammed segment is the rectangle in which the
    vehicles were counted: same left and top, and width and height that
    reach the same right and bottom. *)
Theorem jam_indicator_matches_segment s :
  In s allSegments ->
  let '(x, y, width, height) := jamIndicator s in
  x = xMin (segmentRect s) /\ y = yMin (segmentRect s)
  /\ x + width = xMax (segmentRect s) /\ y + height = yMax (segmentRect s).
Proof.
  intros _. destruct s as [i j|i j]; simpl;
    unfold CELL_SIZE, INTERSECTION_SIZE, LANE_WIDTH;
    change (100 / 2) with 50; repeat split; lia.
Qed.

Lemma jam_indicator_matches_segment_witness :
  let '(x, y, width, height) := jamIndicator (Vertical 1 2) in
  x = xMin (segmentRect (Vertical 1 2)) /\ y = yMin (segmentRect (Vertical 1 2))
  /\ x + width = xMax (segmentRect (Vertical 1 2))
  /\ y + height = yMax (segmentRect (Vertical 1 2)).
Proof.
  apply (jam_indicator_matches_segment (Vertical 1 2)). vm_compute. tauto.
Defined.

(** * Additional properties: statistics *)

Lemma jsDiv_defined a z : z <> 0 -> jsDiv a (inject_Z z) = Some (a / inject_Z z)%Q.
Proof.
  intros Hz. unfold jsDiv.
  destruct (Qeq_bool (inject_Z z) 0) eqn:Heq; [|reflexivity].
  apply Qeq_bool_iff in Heq. change 0%Q with (inject_Z 0) in Heq.
  destruct (Hz (proj1 (inject_Z_injective z 0) Heq)).
Qed.

Lemma averageWait_defined vehicles : is_Some (averageWait vehicles).
Proof.
  unfold averageWait.
  destruct (Nat.ltb_spec 0 (length vehicles)) as [Hpos|_]; [|eauto].
  rewrite jsDiv_defined by lia. simpl.
  rewrite jsDiv_defined by (unfold TICKS_PER_SECOND; lia). eauto.
Qed.

Lemma densityAt_defined vehicles weather r i :
  is_Some (densityAt vehicles weather r i).
Proof.
  unfold densityAt. cbv zeta.
  rewrite jsDiv_defined by lia. simpl. eauto.
Qed.

(** X22.  No statistic is ever the result of a division by zero: for
    every vehicle list, weather and noise draw, the average wait time and
    each of the nine densities is a number. *)
Theorem stats_always_defined tick vehicles weather rnd prev :
  is_Some (averageWaitTime (snd (fst (updateStats tick vehicles weather rnd prev))))
  /\ length (trafficDensity (snd (fst (updateStats tick vehicles weather rnd prev))))
     = 9%nat
  /\ Forall is_Some
       (trafficDensity (snd (fst (updateStats tick vehicles weather rnd prev)))).
Proof.
  unfold updateStats. cbn [fst snd averageWaitTime trafficDensity].
  split; [apply averageWait_defined|]. split; [reflexivity|].
  apply (Forall_map_impl (fun _ => True)); [|apply Forall_forall; tauto].
  intros i _. apply densityAt_defined.
Qed.

Lemma filter_partition_length {A} (fn : A -> bool) (l : list A) :
  (length (List.filter (fun a => negb (fn a)) l) + length (List.filter fn l)
   = length l)%nat.
Proof.
  induction l as [|a l IH]; simpl; [reflexivity|].
  destruct (fn a); simpl; lia.
Qed.

Lemma type_counts_length (l : list Vehicle) :
  (length (List.filter (fun v => bool_decide (vtype v = CAR)) l)
   + length (List.filter (fun v => bool_decide (vtype v = BIKE)) l)
   + length (List.filter (fun v => bool_decide (vtype v = BUS)) l)
   = length l)%nat.
Proof.
  induction l as [|a l IH]; simpl; [reflexivity|].
  destruct (vtype a); simpl; lia.
Qed.

(** X23.  The counts of a statistics snapshot add up: the moving and the
    stopped vehicles make up the total, and so do the cars, bikes and
    buses. *)
Theorem stats_counts_add_up tick vehicles weather rnd prev :
  (movingCars (snd (fst (updateStats tick vehicles weather rnd prev)))
   + length (List.filter stopped vehicles)
   = totalCars (snd (fst (updateStats tick vehicles weather rnd prev))))%nat
  /\ (let '(cars, bikes, buses) :=
        vehicleCounts (snd (fst (updateStats tick vehicles weather rnd prev))) in
      (cars + bikes + buses
       = totalCars (snd (fst (updateStats tick vehicles weather rnd prev))))%nat).
Proof.
  unfold updateStats. cbn [fst snd movingCars totalCars vehicleCounts].
  split; [apply filter_partition_length|apply type_counts_length].
Qed.

(** X24.  In clear weather every density is a percentage, whatever the
    noise draw: a number between 0 and 100. *)
Theorem clear_density_is_percentage vehicles r i :
  exists q, densityAt vehicles Clear r i = Some q /\ (0 <= q)%Q /\ (q <= 100)%Q.
Proof.
  unfold densityAt. cbv zeta.
  change (Qltb 0 (noiseFactorOf Clear)) with false. cbv iota.
  rewrite jsDiv_defined by lia. simpl mbind.
  eexists. split; [reflexivity|].
  set (near := List.filter _ vehicles).
  assert (Hnear : (length near <= length vehicles)%nat)
    by (apply filter_length_le).
  set (c := inject_Z (Z.of_nat (length near))).
  set (d := inject_Z (Z.max 1 (Z.of_nat (length vehicles)))).
  assert (Hc0 : (0 <= c)%Q).
  { unfold c. change 0%Q with (inject_Z 0). rewrite <- Zle_Qle. lia. }
  assert (Hd0 : (0 < d)%Q).
  { unfold d. change 0%Q with (inject_Z 0). rewrite <- Zlt_Qlt. lia. }
  assert (Hcd : (c <= d)%Q).
  { unfold c, d. rewrite <- Zle_Qle. lia. }
  assert (Hq0 : (0 <= c / d)%Q) by (apply Qle_shift_div_l; [exact Hd0|lra]).
  assert (Hq1 : (c / d <= 1)%Q) by (apply Qle_shift_div_r; [exact Hd0|lra]).
  split; lra.
Qed.

Lemma lastN_length {A} n (l : list A) : (length (lastN n l) <= n)%nat.
Proof. unfold lastN. rewrite length_drop. lia. Qed.

Lemma lastN_last {A} n (l : list A) x :
  (0 < n)%nat -> last (lastN n (l ++ [x])) = Some x.
Proof.
  intros Hn. unfold lastN. rewrite length_app. simpl.
  rewrite drop_app_le by lia. apply last_snoc.
Qed.

(** X25.  The wait-time history is a bounded buffer.  A sample is added
    exactly when the incremented tick is a multiple of
    [TICKS_PER_SECOND]; it is then the last entry, stamped with that tick,
    and the history holds at most 50 entries; otherwise the history is
    unchanged.  The tick always advances by one. *)
Theorem history_is_bounded tick vehicles weather rnd prev :
  fst (fst (updateStats tick vehicles weather rnd prev)) = tick + 1
  /\ ((tick + 1) mod TICKS_PER_SECOND = 0 ->
      last (historicalWaitTime (snd (fst (updateStats tick vehicles weather rnd prev))))
        = Some (tick + 1, averageWait vehicles)
      /\ (length (historicalWaitTime
                    (snd (fst (updateStats tick vehicles weather rnd prev))))
          <= 50)%nat)
  /\ ((tick + 1) mod TICKS_PER_SECOND <> 0 ->
      historicalWaitTime (snd (fst (updateStats tick vehicles weather rnd prev)))
        = historicalWaitTime prev).
Proof.
  unfold updateStats. cbn [fst snd historicalWaitTime].
  split; [reflexivity|]. split.
  - intros Hmod. rewrite Hmod. cbn [Z.eqb].
    split; [apply lastN_last; lia|apply lastN_length].
  - intros Hmod. destruct (Z.eqb_spec ((tick + 1) mod TICKS_PER_SECOND) 0);
      [contradiction|reflexivity].
Qed.

Lemma history_is_bounded_witness :
  last (historicalWaitTime (snd (fst (updateStats 9 twoCars Clear (fun _ => 0%Q)
                                        initialStats))))
    = Some (9 + 1, averageWait twoCars)
  /\ (length (historicalWaitTime
                (snd (fst (updateStats 9 twoCars Clear (fun _ => 0%Q) initialStats))))
      <= 50)%nat.
Proof.
  apply (proj1 (proj2 (history_is_bounded 9 twoCars Clear (fun _ => 0%Q) initialStats))).
  reflexivity.
Defined.

(** * Additional properties: emergency routing *)

Lemma Qfloor_unique q n :
  (inject_Z n <= q)%Q -> (q < inject_Z (n + 1))%Q -> Qfloor q = n.
Proof.
  intros Hlo Hhi.
  pose proof (Qfloor_le q) as H1. pose proof (Qlt_floor q) as H2.
  assert (Ha : (inject_Z (Qfloor q) < inject_Z (n + 1))%Q)
    by (eapply Qle_lt_trans; eassumption).
  assert (Hb : (inject_Z n < inject_Z (Qfloor q + 1))%Q)
    by (eapply Qle_lt_trans; eassumption).
  rewrite <- Zlt_Qlt in Ha, Hb. lia.
Qed.

Lemma gridIndex_offset p lane off :
  0 <= off < CELL_SIZE ->
  (p == inject_Z (lane * CELL_SIZE + off))%Q ->
  gridIndex p = lane.
Proof.
  intros Hoff Hp. unfold gridIndex. rewrite Hp.
  unfold CELL_SIZE, LANE_WIDTH, INTERSECTION_SIZE in *.
  change (inject_Z (50 * 2 + 100)) with (200 # 1).
  apply Qfloor_unique.
  - apply Qle_shift_div_l; [reflexivity|].
    change (200 # 1) with (inject_Z 200).
    rewrite <- inject_Z_mult, <- Zle_Qle. lia.
  - apply Qlt_shift_div_r; [reflexivity|].
    change (200 # 1) with (inject_Z 200).
    rewrite <- inject_Z_mult, <- Zlt_Qlt. lia.
Qed.

Lemma hypotLt_far a b d :
  (inject_Z (d * d) <= b * b)%Q -> hypotLt a b d = false.
Proof.
  intros Hb. unfold hypotLt.
  destruct (Qltb (a * a + b * b) (inject_Z (d * d))) eqn:H; [|reflexivity].
  apply Qltb_lt in H. exfalso.
  assert (0 <= a * a)%Q by nra. lra.
Qed.

Lemma hypotLt_far_l a b d :
  (inject_Z (d * d) <= a * a)%Q -> hypotLt a b d = false.
Proof.
  intros Ha. unfold hypotLt.
  destruct (Qltb (a * a + b * b) (inject_Z (d * d))) eqn:H; [|reflexivity].
  apply Qltb_lt in H. exfalso.
  assert (0 <= b * b)%Q by nra. lra.
Qed.

(** X26.  Route following never acts on a vehicle that is on a lane.  The
    turn is taken only within 15 units of the centre of the cell, which
    lies 50 units from the cell origin in both coordinates, and every lane
    passes 25 units from it: for a vehicle on a lane, emergency or not,
    with or without a path, the routing step changes nothing, so its
    heading is never re-derived from the path. *)
Theorem routing_never_acts_on_lanes v :
  onLane v -> routeEmergency v = v.
Proof.
  intros [lane Hlane]. unfold routeEmergency.
  destruct (path v) as [p|]; [|reflexivity].
  destruct (_ && _); [|reflexivity].
  assert (Hfar : hypotLt
            (vx v - inject_Z (gridIndex (vx v) * CELL_SIZE + INTERSECTION_SIZE / 2))
            (vy v - inject_Z (gridIndex (vy v) * CELL_SIZE + INTERSECTION_SIZE / 2))
            15 = false).
  { unfold CELL_SIZE, LANE_WIDTH, INTERSECTION_SIZE in *.
    change (100 / 2) with 50. change (50 * 2 + 100) with 200 in *.
    destruct Hlane as [H|[H|[H|H]]].
    - apply hypotLt_far.
      rewrite (gridIndex_offset (vy v) lane 25) by (unfold CELL_SIZE, LANE_WIDTH, INTERSECTION_SIZE; first [lia | exact H]).
      rewrite H, !inject_Z_plus, !inject_Z_mult.
      change (inject_Z (15 * 15)) with (225 # 1).
      change (inject_Z 25) with (25 # 1). change (inject_Z 50) with (50 # 1).
      ring_simplify. lra.
    - apply hypotLt_far.
      rewrite (gridIndex_offset (vy v) lane 75) by (unfold CELL_SIZE, LANE_WIDTH, INTERSECTION_SIZE; first [lia | exact H]).
      rewrite H, !inject_Z_plus, !inject_Z_mult.
      change (inject_Z (15 * 15)) with (225 # 1).
      change (inject_Z 75) with (75 # 1). change (inject_Z 50) with (50 # 1).
      ring_simplify. lra.
    - apply hypotLt_far_l.
      rewrite (gridIndex_offset (vx v) lane 25) by (unfold CELL_SIZE, LANE_WIDTH, INTERSECTION_SIZE; first [lia | exact H]).
      rewrite H, !inject_Z_plus, !inject_Z_mult.
      change (inject_Z (15 * 15)) with (225 # 1).
      change (inject_Z 25) with (25 # 1). change (inject_Z 50) with (50 # 1).
      ring_simplify. lra.
    - apply hypotLt_far_l.
      rewrite (gridIndex_offset (vx v) lane 75) by (unfold CELL_SIZE, LANE_WIDTH, INTERSECTION_SIZE; first [lia | exact H]).
      rewrite H, !inject_Z_plus, !inject_Z_mult.
      change (inject_Z (15 * 15)) with (225 # 1).
      change (inject_Z 75) with (75 # 1). change (inject_Z 50) with (50 # 1).
      ring_simplify. lra. }
  rewrite Hfar. reflexivity.
Qed.

Lemma routing_never_acts_on_lanes_witness :
  routeEmergency emergencyCar = emergencyCar.
Proof.
  apply routing_never_acts_on_lanes. exists 0. left. reflexivity.
Defined.
